(** * core-js-101: objects tasks and promises tasks

    A shallow embedding of [06-objects-tasks.js] (the css selector builder,
    [getJSON] and [fromJSON]) and of the promises tasks ([willYouMarryMe],
    [processAllPromises], [getFastestPromise], [chainPromises]), with the
    properties stated about them. *)

From Stdlib Require Import String Ascii List ZArith Lia Bool Sorted.
From Stdlib Require Decimal DecimalString DecimalZ DecimalPos DecimalFacts.
Import ListNotations.
Local Open Scope string_scope.

(** ** JavaScript preliminaries *)

Module Js.

(** A thrown exception: the constructor that built it and its message. *)
Inductive exn : Type :=
| Error (message : string)
| TypeError (message : string)
| SyntaxError (message : string).

(** How a call ends: it returns, or it throws. *)
Inductive completion (A : Type) : Type :=
| Normal (a : A)
| Throw (e : exn).
Arguments Normal {A} a.
Arguments Throw {A} e.

(** Code that reads and writes captured variables of type [S] and may throw.
    The store is returned in both cases: a throw does not roll anything
    back. *)
Definition M (S A : Type) : Type := S -> completion A * S.

Definition ret {S A} (a : A) : M S A := fun s => (Normal a, s).

Definition bind {S A B} (m : M S A) (k : A -> M S B) : M S B :=
  fun s =>
    match m s with
    | (Normal a, s') => k a s'
    | (Throw e, s') => (Throw e, s')
    end.

Definition throw {S A} (e : exn) : M S A := fun s => (Throw e, s).
Definition get {S} : M S S := fun s => (Normal s, s).
Definition put {S} (s : S) : M S unit := fun _ => (Normal tt, s).

(** [Array.prototype.findIndex]: the index of the first element the
    predicate accepts, -1 when there is none. *)
Fixpoint findIndex_from {A} (p : A -> bool) (l : list A) (i : Z) : Z :=
  match l with
  | [] => (-1)%Z
  | x :: l' => if p x then i else findIndex_from p l' (i + 1)%Z
  end.

Definition findIndex {A} (p : A -> bool) (l : list A) : Z :=
  findIndex_from p l 0%Z.

(** [x || ''] where [x] is a string or [undefined]: both [undefined] and the
    empty string are falsy, and the empty string is the result for both. *)
Definition or_empty (x : option string) : string :=
  match x with
  | Some s => s
  | None => ""
  end.

(** The string made of one double quote character. *)
Definition quote : string := String (ascii_of_nat 34) "".

End Js.

Notation "x <- m ;; k" := (Js.bind m (fun x => k))
  (at level 61, m at next level, right associativity).
Notation "m ;;; k" := (Js.bind m (fun _ => k))
  (at level 61, right associativity).

(** ** The css selector builder *)

Module Css.
Import Js.

(** The object [getSelectorObject] builds. *)
Record selectorObject : Type := {
  selectorName : string;
  symbols : list string;
  weight : Z
}.

(** The variables a [Selector] closes over. *)
Record Selector : Type := {
  selectors : list selectorObject;
  currentSelectorWeight : Z
}.

(** [new Selector()] before any method is called. *)
Definition new_Selector : Selector :=
  {| selectors := []; currentSelectorWeight := 0 |}.

Definition unchainableSelecors : list Z := [0; 1; 5]%Z.

Definition isUnchainableInChain (selector : selectorObject) (this : Selector) : bool :=
  negb (findIndex (fun selectorWeight => (selectorWeight =? weight selector)%Z)
          unchainableSelecors =? -1)%Z
  && negb (findIndex (fun s => (weight s =? weight selector)%Z)
             (selectors this) =? -1)%Z.

Definition duplicate_message : string :=
  "Element, id and pseudo-element should not occur more then one time inside the selector".

Definition order_message : string :=
  "Selector parts should be arranged in the following order: element, id, class, attribute, pseudo-class, pseudo-element".

Definition checkSequence (selector : selectorObject) : M Selector unit :=
  this <- get ;;
  if isUnchainableInChain selector this then throw (Error duplicate_message)
  else if (weight selector <? currentSelectorWeight this)%Z then throw (Error order_message)
  else put {| selectors := selectors this; currentSelectorWeight := weight selector |}.

Definition push (selector : selectorObject) : M Selector unit :=
  this <- get ;;
  put {| selectors := selectors this ++ [selector];
         currentSelectorWeight := currentSelectorWeight this |}.

Definition handleSelector (selector : selectorObject) : M Selector unit :=
  checkSequence selector ;;; push selector.

Definition getSelectorString (s : selectorObject) : string :=
  let preceedingSymbol := or_empty (nth_error (symbols s) 0) in
  let subsequentSymbol := or_empty (nth_error (symbols s) 1) in
  preceedingSymbol ++ selectorName s ++ subsequentSymbol.

Definition getSelectorObject (selectorName : string) (symbols : list string) (weight : Z)
  : selectorObject :=
  {| selectorName := selectorName; symbols := symbols; weight := weight |}.

(** The six chaining methods. Each returns [this], which the state passing
    makes implicit. *)
Definition element (tagName : string) : M Selector unit :=
  handleSelector (getSelectorObject tagName [] 0).

Definition id (id : string) : M Selector unit :=
  handleSelector (getSelectorObject id ["#"] 1).

Definition class (className : string) : M Selector unit :=
  handleSelector (getSelectorObject className ["."] 2).

Definition attr (attributeName : string) : M Selector unit :=
  handleSelector (getSelectorObject attributeName ["["; "]"] 3).

Definition pseudoClass (className : string) : M Selector unit :=
  handleSelector (getSelectorObject className [":"] 4).

Definition pseudoElement (className : string) : M Selector unit :=
  handleSelector (getSelectorObject className ["::"] 5).

Definition stringify (this : Selector) : string :=
  fold_left (fun acc selector => acc ++ getSelectorString selector) (selectors this) "".

(** A chain of method calls [s.m1(x1).m2(x2)...]. *)
Inductive part : Type :=
| PElement | PId | PClass | PAttr | PPseudoClass | PPseudoElement.

Definition call : Type := (part * string)%type.

Definition invoke (c : call) : M Selector unit :=
  match fst c with
  | PElement => element (snd c)
  | PId => id (snd c)
  | PClass => class (snd c)
  | PAttr => attr (snd c)
  | PPseudoClass => pseudoClass (snd c)
  | PPseudoElement => pseudoElement (snd c)
  end.

(** The calls run left to right; the first throw ends the chain. *)
Fixpoint chain (calls : list call) : M Selector unit :=
  match calls with
  | [] => ret tt
  | c :: rest => invoke c ;;; chain rest
  end.

(** [cssSelectorBuilder.m1(x1).m2(x2)...]: the facade makes a new
    [Selector] for the first call. *)
Definition cssSelectorBuilder (calls : list call) : completion unit * Selector :=
  chain calls new_Selector.

(** *** The words of the description *)

(** The rank and the delimiters of each kind of part, as the description of
    the builder tabulates them. *)
Definition rank (p : part) : Z :=
  match p with
  | PElement => 0 | PId => 1 | PClass => 2
  | PAttr => 3 | PPseudoClass => 4 | PPseudoElement => 5
  end.

Definition prefix (p : part) : string :=
  match p with
  | PElement => "" | PId => "#" | PClass => "."
  | PAttr => "[" | PPseudoClass => ":" | PPseudoElement => "::"
  end.

Definition suffix (p : part) : string :=
  match p with
  | PAttr => "]"
  | _ => ""
  end.

Definition fragment (c : call) : string := prefix (fst c) ++ snd c ++ suffix (fst c).

(** The parts that may occur once only. *)
Definition once (p : part) : bool :=
  match p with
  | PElement | PId | PPseudoElement => true
  | _ => false
  end.

(** The chain holds a part of weight [w]. *)
Definition has_weight (w : Z) (this : Selector) : bool :=
  existsb (fun s => (weight s =? w)%Z) (selectors this).

(** The object each method hands to [handleSelector]. *)
Definition object_of (c : call) : selectorObject :=
  match fst c with
  | PElement => getSelectorObject (snd c) [] 0
  | PId => getSelectorObject (snd c) ["#"] 1
  | PClass => getSelectorObject (snd c) ["."] 2
  | PAttr => getSelectorObject (snd c) ["["; "]"] 3
  | PPseudoClass => getSelectorObject (snd c) [":"] 4
  | PPseudoElement => getSelectorObject (snd c) ["::"] 5
  end.

(** The largest weight in the chain, 0 for the empty chain. *)
Definition max_weight (l : list selectorObject) : Z :=
  fold_right Z.max 0%Z (map weight l).

(** Every call ends in one of the three ways. *)
Variant outcome (selector : selectorObject) (this : Selector)
  : completion unit * Selector -> Prop :=
| Duplicate :
    isUnchainableInChain selector this = true ->
    outcome selector this (Throw (Error duplicate_message), this)
| OutOfOrder :
    isUnchainableInChain selector this = false ->
    (weight selector < currentSelectorWeight this)%Z ->
    outcome selector this (Throw (Error order_message), this)
| Pushed :
    isUnchainableInChain selector this = false ->
    (currentSelectorWeight this <= weight selector)%Z ->
    outcome selector this
      (Normal tt, {| selectors := selectors this ++ [selector];
                     currentSelectorWeight := weight selector |}).

(** The selector a chain of calls on the builder returns. *)
Definition built (calls : list call) : Selector := snd (cssSelectorBuilder calls).

End Css.

(** ** The combinator node *)

Module Combine.

(** What [combine] asks of its operands: a [stringify] method. *)
Class Stringify (A : Type) : Type := stringify : A -> string.

#[export] Instance Selector_Stringify : Stringify Css.Selector := Css.stringify.

(** The fields of a [Combiner]; the operands can be selectors or other
    combiners. *)
Record Combiner (A B : Type) : Type := {
  LHselector : A;
  combinator : string;
  RHselector : B
}.
Arguments LHselector {A B} _.
Arguments combinator {A B} _.
Arguments RHselector {A B} _.

#[export] Instance Combiner_Stringify {A B} `{Stringify A} `{Stringify B}
  : Stringify (Combiner A B) :=
  fun this =>
    stringify (LHselector this) ++ " " ++ combinator this ++ " "
      ++ stringify (RHselector this).

(** [cssSelectorBuilder.combine] *)
Definition combine {A B} (selector1 : A) (combinator : string) (selector2 : B)
  : Combiner A B :=
  {| LHselector := selector1; combinator := combinator; RHselector := selector2 |}.

(** [s] occurs in [t]. *)
Definition occurs_in (s t : string) : Prop :=
  exists before after, t = before ++ s ++ after.

End Combine.

(** ** The promises tasks *)

Module Promises.
Import Js.

(** The values the functions handle. Numbers are the integers. *)
Inductive value : Type :=
| VUndefined
| VNull
| VBool (b : bool)
| VNum (n : Z)
| VStr (s : string).

(** [ToBoolean] *)
Definition truthy (v : value) : bool :=
  match v with
  | VUndefined | VNull => false
  | VBool b => b
  | VNum n => negb (n =? 0)%Z
  | VStr s => negb (s =? "")%string
  end.

Definition is_undefined (v : value) : bool :=
  match v with
  | VUndefined => true
  | _ => false
  end.

(** A promise, by its state. For an input of [chainPromises] the state is
    the one the promise ends in, [Pending] meaning that it never settles. *)
Inductive promise (A : Type) : Type :=
| Fulfilled (a : A)
| Rejected (reason : exn)
| Pending.
Arguments Fulfilled {A} a.
Arguments Rejected {A} reason.
Arguments Pending {A}.

Definition settled {A} (p : promise A) : bool :=
  match p with
  | Pending => false
  | _ => true
  end.

(** [new Promise(executor)] for an executor that runs to the end and whose
    result is its call of [resolve] or [reject]. *)
Definition new_Promise {A} (executor : (A -> promise A) -> (exn -> promise A) -> promise A)
  : promise A :=
  executor Fulfilled Rejected.

Definition yes_message : string := "Hooray!!! She said " ++ quote ++ "Yes" ++ quote ++ "!".
Definition no_message : string := "Oh no, she said " ++ quote ++ "No" ++ quote ++ ".".
Definition wrong_message : string := "Wrong parameter is passed! Ask her again.".

(** A call without argument binds [isPositiveAnswer] to [undefined]. *)
Definition willYouMarryMe (isPositiveAnswer : value) : promise value :=
  new_Promise (fun resolve reject =>
    if negb (is_undefined isPositiveAnswer)
    then resolve (VStr (if truthy isPositiveAnswer then yes_message else no_message))
    else reject (Error wrong_message)).

(** *** chainPromises *)

Definition action_t : Type := value -> value -> completion value.

(** [promiseLoop(acc)] with the array in [array]; the result is the state of
    the promise [chainPromises] returned and the array, once nothing more
    can run. [shift] on the empty array gives [undefined], and the call of
    [then] on it throws. The handler given to [catch] runs when the input
    rejected and when the handler given to [then] threw. *)
Fixpoint promiseLoop (action : action_t) (acc : value) (array : list (promise value))
  : promise value * list (promise value) :=
  let acc := if is_undefined acc then VNull else acc in
  match array with
  | [] => (Rejected (TypeError "Cannot read properties of undefined (reading 'then')"), [])
  | first :: array =>
    let on_catch :=
      match array with
      | [] => (Fulfilled acc, array)
      | _ :: _ => promiseLoop action acc array
      end in
    match first with
    | Fulfilled value =>
      match (if truthy acc then action acc value else Normal value) with
      | Normal newAcc =>
        match array with
        | [] => (Fulfilled newAcc, array)
        | _ :: _ => promiseLoop action newAcc array
        end
      | Throw _ => on_catch
      end
    | Rejected _ => on_catch
    | Pending => (Pending, array)
    end
  end.

Definition chainPromises (array : list (promise value)) (action : action_t)
  : promise value * list (promise value) :=
  promiseLoop action VUndefined array.

(** The fold the description of [chainPromises] gives: the values of the
    inputs that resolve, in order, combined by [action], the first one
    seeding the accumulator; [None] before the first success. *)
Fixpoint fold_resolved (action : value -> value -> value) (acc : option value)
  (array : list (promise value)) : option value :=
  match array with
  | [] => acc
  | Fulfilled value :: rest =>
    fold_resolved action
      (Some match acc with Some a => action a value | None => value end) rest
  | _ :: rest => fold_resolved action acc rest
  end.

(** *** processAllPromises *)

(** A job of the microtask queue: the handler [value => acc.push(value)] of
    an input that is fulfilled, the rejection of the promise [then] derived
    from an input that is rejected, and the handler of a caller that reads
    the array the returned promise carries. *)
Inductive job : Type :=
| Push (value : value)
| Unhandled (reason : exn)
| Observe.

(** The array [acc] that the executor allocates, the queue, what the
    callers' handlers have read, and the inputs with a handler waiting. *)
Record world : Type := {
  acc : list value;
  queue : list job;
  observed : list (list value);
  waiting : list nat
}.

Definition enqueue (j : job) (w : world) : world :=
  {| acc := acc w; queue := queue w ++ [j]; observed := observed w; waiting := waiting w |}.

(** [promise.then((value) => acc.push(value))] for the input at [index]. *)
Definition then_push (w : world) (indexed : nat * promise value) : world :=
  match snd indexed with
  | Fulfilled value => enqueue (Push value) w
  | Rejected reason => enqueue (Unhandled reason) w
  | Pending =>
    {| acc := acc w; queue := queue w; observed := observed w;
       waiting := waiting w ++ [fst indexed] |}
  end.

(** The promise [processAllPromises] returns carries the array itself, not
    a copy: [AccRef] stands for the reference. *)
Inductive ref : Type := AccRef.

Definition indexed {A} (l : list A) : list (nat * A) := combine (seq 0 (length l)) l.

Definition processAllPromises (array : list (promise value)) : promise ref * world :=
  let w0 := {| acc := []; queue := []; observed := []; waiting := [] |} in
  let w := fold_left then_push (indexed array) w0 in
  (new_Promise (fun resolve _ => resolve AccRef), w).

(** [p.then((res) => ...)] on the returned promise, which is fulfilled: the
    handler is queued behind the jobs already there. *)
Definition then_observe (w : world) : world := enqueue Observe w.

Definition run_job (j : job) (w : world) : world :=
  match j with
  | Push value =>
    {| acc := acc w ++ [value]; queue := queue w; observed := observed w;
       waiting := waiting w |}
  | Unhandled _ => w
  | Observe =>
    {| acc := acc w; queue := queue w; observed := observed w ++ [acc w];
       waiting := waiting w |}
  end.

(** The queue runs first in, first out, until it is empty. No job of this
    function queues another one. *)
Definition drain (w : world) : world :=
  fold_left (fun w j => run_job j w) (queue w)
    {| acc := acc w; queue := []; observed := observed w; waiting := waiting w |}.

(** The input at [index], pending until now, settles: the handler that
    waits on it is queued. *)
Definition settle (index : nat) (outcome : promise value) (w : world) : world :=
  if existsb (Nat.eqb index) (waiting w) then
    let w' := {| acc := acc w; queue := queue w; observed := observed w;
                 waiting := filter (fun i => negb (Nat.eqb index i)) (waiting w) |} in
    match outcome with
    | Fulfilled value => enqueue (Push value) w'
    | Rejected reason => enqueue (Unhandled reason) w'
    | Pending => w
    end
  else w.

(** The values of the inputs that are fulfilled, in array order. *)
Definition fulfilled_values (array : list (promise value)) : list value :=
  flat_map (fun p => match p with Fulfilled v => [v] | _ => [] end) array.

(** The jobs the executor queues for the inputs, in array order. *)
Definition jobs_of (array : list (promise value)) : list job :=
  flat_map (fun p => match p with
                     | Fulfilled v => [Push v]
                     | Rejected reason => [Unhandled reason]
                     | Pending => []
                     end) array.

(** The accumulator as the loop holds it: null before the first success. *)
Definition acc_value (o : option value) : value :=
  match o with
  | Some v => v
  | None => VNull
  end.

(** *** The words of the examples *)

(** An action that does not throw. *)
Definition returns (f : value -> value -> value) : action_t :=
  fun a b => Normal (f a b).

(** [(a, b) => a + b] and [(a, b) => a - b], on numbers. *)
Definition add (a b : value) : value :=
  match a, b with
  | VNum x, VNum y => VNum (x + y)
  | _, _ => VUndefined
  end.

Definition sub (a b : value) : value :=
  match a, b with
  | VNum x, VNum y => VNum (x - y)
  | _, _ => VUndefined
  end.

End Promises.

(** ** JSON *)

Module Json.
Import Js.

(** The data of [JSON.stringify] and [JSON.parse], as far as they are
    modelled here: of the numbers the integers, of the strings those made of
    code units below 256. The properties of an object are listed in the
    order the object enumerates them; an object or an array inside a value
    has the prototype it was born with, [Object.prototype] or
    [Array.prototype], which have no toJSON method. *)
#[warnings="-register-all"]
Inductive json : Type :=
| JNull
| JBool (b : bool)
| JNum (n : Z)
| JStr (s : string)
| JArr (items : list json)
| JObj (props : list (string * json)).

Definition quote_char : ascii := ascii_of_nat 34.
Definition backslash : ascii := ascii_of_nat 92.

(** *** JSON.stringify *)

Definition hex_digit (n : N) : ascii :=
  if (n <? 10)%N then ascii_of_N (48 + n) else ascii_of_N (87 + n).

(** One code unit of a string, as [QuoteJSONString] writes it. *)
Definition escape (c : ascii) : string :=
  let n := N_of_ascii c in
  if (n =? 8)%N then "\b"
  else if (n =? 9)%N then "\t"
  else if (n =? 10)%N then "\n"
  else if (n =? 12)%N then "\f"
  else if (n =? 13)%N then "\r"
  else if (n =? 34)%N then String backslash quote
  else if (n =? 92)%N then "\\"
  else if (n <? 32)%N then
    "\u00" ++ String (hex_digit (n / 16)) (String (hex_digit (n mod 16)) "")
  else String c "".

Fixpoint quote_chars (s : string) : string :=
  match s with
  | "" => ""
  | String c s' => escape c ++ quote_chars s'
  end.

Definition QuoteJSONString (s : string) : string :=
  String quote_char (quote_chars s ++ quote).

Definition max_safe_integer : Z := 9007199254740991.

(** [Number::toString] on a safe integer: its decimal digits. The text of
    another number is not modelled, see [JSON_stringify]. *)
Definition number_to_string (n : Z) : string :=
  DecimalString.NilEmpty.string_of_int (Z.to_int n).

Fixpoint SerializeJSONProperty (value : json) : string :=
  match value with
  | JNull => "null"
  | JBool true => "true"
  | JBool false => "false"
  | JNum n => number_to_string n
  | JStr s => QuoteJSONString s
  | JArr items => "[" ++ String.concat "," (map SerializeJSONProperty items) ++ "]"
  | JObj props =>
    "{" ++ String.concat ","
             (map (fun kv => let '(k, v) := kv in
                             QuoteJSONString k ++ ":" ++ SerializeJSONProperty v) props)
        ++ "}"
  end.

(** The numbers of a value are safe integers. *)
Fixpoint safe_numbers (value : json) : bool :=
  match value with
  | JNum n => (Z.abs n <=? max_safe_integer)%Z
  | JArr items => forallb safe_numbers items
  | JObj props => forallb (fun kv => let '(_, v) := kv in safe_numbers v) props
  | _ => true
  end.

(** [JSON.stringify] on a value: its text, and no answer ([None]) for a
    value that holds a number whose text is not modelled. *)
Definition JSON_stringify (value : json) : option string :=
  if safe_numbers value then Some (SerializeJSONProperty value) else None.

(** *** JSON.parse *)

(** What parsing a text gives: a value, a SyntaxError, or no answer for a
    text that has a number with a fraction or an exponent, a number that is
    not a safe integer, minus zero, or an escape of a code unit above 255. *)
Inductive parsed (A : Type) : Type :=
| Parsed (a : A)
| Malformed
| Unsupported.
Arguments Parsed {A} a.
Arguments Malformed {A}.
Arguments Unsupported {A}.

Definition and_then {A B} (p : parsed A) (k : A -> parsed B) : parsed B :=
  match p with
  | Parsed a => k a
  | Malformed => Malformed
  | Unsupported => Unsupported
  end.

Definition is_ws (c : ascii) : bool :=
  let n := N_of_ascii c in
  (n =? 32)%N || (n =? 9)%N || (n =? 10)%N || (n =? 13)%N.

Fixpoint skip_ws (s : string) : string :=
  match s with
  | String c s' => if is_ws c then skip_ws s' else s
  | "" => ""
  end.

Definition is_digit (c : ascii) : bool :=
  let n := N_of_ascii c in (48 <=? n)%N && (n <=? 57)%N.

Fixpoint span_digits (s : string) : string * string :=
  match s with
  | String c s' =>
    if is_digit c then let (ds, rest) := span_digits s' in (String c ds, rest)
    else ("", s)
  | "" => ("", "")
  end.

Definition hex_value (c : ascii) : option N :=
  let n := N_of_ascii c in
  if (48 <=? n)%N && (n <=? 57)%N then Some (n - 48)%N
  else if (97 <=? n)%N && (n <=? 102)%N then Some (n - 87)%N
  else if (65 <=? n)%N && (n <=? 70)%N then Some (n - 55)%N
  else None.

Definition hex4 (a b c d : ascii) : option N :=
  match hex_value a, hex_value b, hex_value c, hex_value d with
  | Some x, Some y, Some z, Some w => Some (((x * 16 + y) * 16 + z) * 16 + w)%N
  | _, _, _, _ => None
  end.

Definition cons_char (c : ascii) (p : parsed (string * string)) : parsed (string * string) :=
  and_then p (fun r => Parsed (String c (fst r), snd r)).

(** The characters of a string, behind its opening quote, up to the closing
    one. *)
Fixpoint parse_chars (s : string) : parsed (string * string) :=
  match s with
  | "" => Malformed
  | String c s' =>
    if (c =? quote_char)%char then Parsed ("", s')
    else if (c =? backslash)%char then
      match s' with
      | "" => Malformed
      | String e s'' =>
        if (e =? quote_char)%char then cons_char quote_char (parse_chars s'')
        else if (e =? backslash)%char then cons_char backslash (parse_chars s'')
        else if (e =? "/")%char then cons_char "/" (parse_chars s'')
        else if (e =? "b")%char then cons_char (ascii_of_nat 8) (parse_chars s'')
        else if (e =? "f")%char then cons_char (ascii_of_nat 12) (parse_chars s'')
        else if (e =? "n")%char then cons_char (ascii_of_nat 10) (parse_chars s'')
        else if (e =? "r")%char then cons_char (ascii_of_nat 13) (parse_chars s'')
        else if (e =? "t")%char then cons_char (ascii_of_nat 9) (parse_chars s'')
        else if (e =? "u")%char then
          match s'' with
          | String h1 (String h2 (String h3 (String h4 s3))) =>
            match hex4 h1 h2 h3 h4 with
            | Some n =>
              if (n <? 256)%N then cons_char (ascii_of_N n) (parse_chars s3)
              else Unsupported
            | None => Malformed
            end
          | _ => Malformed
          end
        else Malformed
      end
    else if (N_of_ascii c <? 32)%N then Malformed
    else cons_char c (parse_chars s')
  end.

(** The value of a run of digits, with its sign. *)
Definition number_of_digits (negative : bool) (ds : string) : parsed json :=
  match DecimalString.NilEmpty.uint_of_string ds with
  | Some u =>
    let n := Z.of_uint u in
    if negative && (n =? 0)%Z then Unsupported
    else if (n <=? max_safe_integer)%Z
         then Parsed (JNum (if negative then - n else n)%Z)
         else Unsupported
  | None => Malformed
  end.

Definition starts_fraction (s : string) : bool :=
  match s with
  | String c _ => (c =? ".")%char || (c =? "e")%char || (c =? "E")%char
  | "" => false
  end.

(** The digits of a number, behind its sign. A zero is followed by no
    other digit. *)
Definition parse_digits (negative : bool) (s : string) : parsed (json * string) :=
  let (ds, rest) := span_digits s in
  match ds with
  | "" => Malformed
  | String d ds' =>
    if (d =? "0")%char && negb (ds' =? "")%string then Malformed
    else if starts_fraction rest then Unsupported
    else and_then (number_of_digits negative ds) (fun v => Parsed (v, rest))
  end.

(** A number, from its first character: a minus sign or a digit. *)
Definition parse_number (s : string) : parsed (json * string) :=
  match s with
  | String c s' => if (c =? "-")%char then parse_digits true s' else parse_digits false s
  | "" => Malformed
  end.

(** [s] behind the literal [word], if [s] starts with it. *)
Fixpoint expect (word s : string) : option string :=
  match word, s with
  | "", _ => Some s
  | String w word', String c s' => if (w =? c)%char then expect word' s' else None
  | String _ _, "" => None
  end.

Definition literal (word : string) (value : json) (s : string) : parsed (json * string) :=
  match expect word s with
  | Some rest => Parsed (value, rest)
  | None => Malformed
  end.

(** The array index a property name stands for: the name is the decimal
    text, without leading zeros, of an integer below 2^32 - 1. *)
Definition array_index (k : string) : option N :=
  match DecimalString.NilEmpty.uint_of_string k with
  | Some u =>
    let n := N.of_uint u in
    if (DecimalString.NilEmpty.string_of_uint (N.to_uint n) =? k)%string
       && (n <? 4294967295)%N
    then Some n
    else None
  | None => None
  end.

(** An object enumerates its properties with the array indices first, in
    ascending order, and the other names behind them in the order of their
    creation: [k] is listed before [k']. *)
Definition listed_before (k k' : string) : bool :=
  match array_index k, array_index k' with
  | Some n, Some n' => (n <? n')%N
  | Some _, None => true
  | None, _ => false
  end.

Fixpoint insert_prop (props : list (string * json)) (k : string) (v : json)
  : list (string * json) :=
  match props with
  | [] => [(k, v)]
  | (k', v') :: props' =>
    if listed_before k k' then (k, v) :: props
    else (k', v') :: insert_prop props' k v
  end.

Fixpoint replace_prop (props : list (string * json)) (k : string) (v : json)
  : list (string * json) :=
  match props with
  | [] => []
  | (k', v') :: props' =>
    if (k' =? k)%string then (k, v) :: props' else (k', v') :: replace_prop props' k v
  end.

Definition has_prop (props : list (string * json)) (k : string) : bool :=
  existsb (fun kv => (fst kv =? k)%string) props.

(** [CreateDataProperty] on the object under construction: a name that is
    there already keeps its place and takes the new value. *)
Definition set_prop (props : list (string * json)) (k : string) (v : json)
  : list (string * json) :=
  if has_prop props k then replace_prop props k v else insert_prop props k v.

(** The object that creating the properties of [props] one after the other
    builds, from the object [done]. *)
Definition create_props (done props : list (string * json)) : list (string * json) :=
  fold_left (fun acc kv => set_prop acc (fst kv) (snd kv)) props done.

(** The three parsers take the text from the first character of what they
    parse. [fuel] bounds the depth of the calls; [JSON_parse] gives twice the
    length of the text, above which the fuel changes nothing. *)
Fixpoint parse_value (fuel : nat) (s : string) {struct fuel} : parsed (json * string) :=
  match fuel with
  | O => Malformed
  | S fuel =>
    match skip_ws s with
    | "" => Malformed
    | String c rest as s' =>
      if is_digit c || (c =? "-")%char then parse_number s'
      else if (c =? quote_char)%char then
        and_then (parse_chars rest) (fun r => Parsed (JStr (fst r), snd r))
      else if (c =? "[")%char then
        match skip_ws rest with
        | String c' rest' =>
          if (c' =? "]")%char then Parsed (JArr [], rest')
          else and_then (parse_elements fuel rest) (fun r => Parsed (JArr (fst r), snd r))
        | "" => Malformed
        end
      else if (c =? "{")%char then
        match skip_ws rest with
        | String c' rest' =>
          if (c' =? "}")%char then Parsed (JObj [], rest')
          else and_then (parse_members fuel [] rest) (fun r => Parsed (JObj (fst r), snd r))
        | "" => Malformed
        end
      else if (c =? "t")%char then literal "rue" (JBool true) rest
      else if (c =? "f")%char then literal "alse" (JBool false) rest
      else if (c =? "n")%char then literal "ull" JNull rest
      else Malformed
    end
  end

with parse_elements (fuel : nat) (s : string) {struct fuel} : parsed (list json * string) :=
  match fuel with
  | O => Malformed
  | S fuel =>
    and_then (parse_value fuel s) (fun r =>
      let (v, rest) := r in
      match skip_ws rest with
      | String c rest' =>
        if (c =? ",")%char then
          and_then (parse_elements fuel rest') (fun r' => Parsed (v :: fst r', snd r'))
        else if (c =? "]")%char then Parsed ([v], rest')
        else Malformed
      | "" => Malformed
      end)
  end

with parse_members (fuel : nat) (props : list (string * json)) (s : string) {struct fuel}
  : parsed (list (string * json) * string) :=
  match fuel with
  | O => Malformed
  | S fuel =>
    match skip_ws s with
    | String q s1 =>
      if (q =? quote_char)%char then
        and_then (parse_chars s1) (fun r =>
          let (k, s2) := r in
          match skip_ws s2 with
          | String colon s3 =>
            if (colon =? ":")%char then
              and_then (parse_value fuel s3) (fun r' =>
                let (v, s4) := r' in
                let props' := set_prop props k v in
                match skip_ws s4 with
                | String c s5 =>
                  if (c =? ",")%char then parse_members fuel props' s5
                  else if (c =? "}")%char then Parsed (props', s5)
                  else Malformed
                | "" => Malformed
                end)
            else Malformed
          | "" => Malformed
          end)
      else Malformed
    | "" => Malformed
    end
  end.

Definition JSON_parse (text : string) : parsed json :=
  and_then (parse_value (2 * String.length text) text) (fun r =>
    match skip_ws (snd r) with
    | "" => Parsed (fst r)
    | String _ _ => Malformed
    end).

(** *** getJSON and fromJSON *)

(** An object as the two functions see it: its prototype and its own
    enumerable properties; or a primitive value. *)
Inductive object (P : Type) : Type :=
| Object (prototype : P) (own : json)
| Primitive (value : json).
Arguments Object {P} prototype own.
Arguments Primitive {P} value.

Definition own_properties {P} (obj : object P) : json :=
  match obj with
  | Object _ own => own
  | Primitive value => value
  end.

(** What [JSON.stringify] asks of the prototype of an object: whether a
    toJSON method is found on it or up its chain. *)
Class Prototype (P : Type) : Type := has_toJSON : P -> bool.

(** [JSON.stringify] calls the toJSON method of an object and goes on with
    what the method returns, or throws what it throws; the method is code of
    the caller, and there is no answer then ([None]). Without the method the
    text is that of the own enumerable properties, where [JSON_stringify]
    has one. A primitive value is not asked for the method. *)
Definition getJSON {P} `{Prototype P} (obj : object P) : option string :=
  match obj with
  | Object prototype own =>
    if has_toJSON prototype then None else JSON_stringify own
  | Primitive value => JSON_stringify value
  end.

(** Prototypes to name in examples: the one of the objects of a literal,
    the one of a class that defines no toJSON method, and the one of the
    dates, which has the method. *)
Inductive example_prototype : Type :=
| Object_prototype
| Circle_prototype
| Date_prototype.

#[export] Instance example_has_toJSON : Prototype example_prototype :=
  fun prototype => match prototype with
                   | Date_prototype => true
                   | _ => false
                   end.

(** [Object.setPrototypeOf(obj, proto)]: a TypeError on null, nothing done
    on another primitive. *)
Definition setPrototypeOf {P} (obj : json) (proto : P) : completion (object P) :=
  match obj with
  | JNull => Throw (TypeError "Object.setPrototypeOf called on null or undefined")
  | JArr _ | JObj _ => Normal (Object proto obj)
  | _ => Normal (Primitive obj)
  end.

(** [None] where [JSON_parse] has no answer. *)
Definition fromJSON {P} (proto : P) (json : string) : option (completion (object P)) :=
  match JSON_parse json with
  | Parsed obj => Some (setPrototypeOf obj proto)
  | Malformed => Some (Throw (SyntaxError "Unexpected token in JSON"))
  | Unsupported => None
  end.

(** The list [props] is the listing of an object, in the order of its own
    property keys: no name twice, the array indices first and in ascending
    order, the other names behind them. Said with [listed_before]: no name
    is listed before a name that stands in front of it. *)
Definition own_order (props : list (string * json)) : Prop :=
  NoDup (map fst props)
  /\ StronglySorted (fun k k' => listed_before k' k = false) (map fst props).

(** Plain data: safe integers, and objects given by their listing. *)
Fixpoint plain (value : json) : Prop :=
  match value with
  | JNum n => (Z.abs n <= max_safe_integer)%Z
  | JArr items => fold_right (fun v acc => plain v /\ acc) True items
  | JObj props =>
    own_order props
    /\ fold_right (fun kv acc => let '(_, v) := kv in plain v /\ acc) True props
  | _ => True
  end.

(** The calls the parsers make on the text of a value, one inside the
    other. *)
Definition need_list (needs : list nat) : nat :=
  fold_right (fun n acc => S (Nat.max n acc)) 0 needs.

Fixpoint need (value : json) : nat :=
  match value with
  | JArr items => S (need_list (map need items))
  | JObj props => S (need_list (map (fun kv => let '(_, v) := kv in need v) props))
  | _ => 1
  end.

(** What can follow a value in a text: nothing, a comma, or the end of an
    array or of an object. *)
Definition closes (rest : string) : bool :=
  match rest with
  | "" => true
  | String c _ => (c =? ",")%char || (c =? "]")%char || (c =? "}")%char
  end.

(** The characters a value can start with. *)
Definition value_start (c : ascii) : bool :=
  is_digit c || (c =? "-")%char || (c =? quote_char)%char || (c =? "[")%char
  || (c =? "{")%char || (c =? "t")%char || (c =? "f")%char || (c =? "n")%char.

Definition starts_digit (s : string) : bool :=
  match s with
  | String c _ => is_digit c
  | "" => false
  end.

(** The text of a property. *)
Definition member_text (kv : string * json) : string :=
  let '(k, v) := kv in QuoteJSONString k ++ ":" ++ SerializeJSONProperty v.

(** Parsing the text of [value] gives [value] back, whatever closes it. *)
Definition round_trips (value : json) : Prop :=
  forall fuel rest,
    need value <= fuel -> closes rest = true ->
    parse_value fuel (SerializeJSONProperty value ++ rest) = Parsed (value, rest).

End Json.

(** ** The inputs of the promises functions, described *)

Module Inputs.
Import Js Promises.

Definition is_rejected {A} (p : promise A) : bool :=
  match p with
  | Rejected _ => true
  | _ => false
  end.

(** The array without its rejected inputs. *)
Definition drop_rejected (array : list (promise value)) : list (promise value) :=
  filter (fun p => negb (is_rejected p)) array.

(** Inputs of [processAllPromises] that were pending at the call settle one
    after the other, each given by its index in the array and the state it
    settles in; the queue runs after each. *)
Definition settle_all (events : list (nat * promise value)) (w : world) : world :=
  fold_left (fun w event => drain (settle (fst event) (snd event) w)) events w.

End Inputs.

(** ** getFastestPromise *)

Module Race.
Import Js Promises.

(** A job of the microtask queue of [getFastestPromise]: the handler
    [value => resolve(value)] of an input that is fulfilled; the rejection
    of the promise [then] derived from an input that is rejected, [then]
    having no handler for it; the handler [e => reject(e)] given to [catch]
    on that derived promise; and the fulfilment passing through [catch],
    which has no handler for it. *)
Inductive job : Type :=
| OnFulfilled (value : value)
| PassRejection (reason : exn)
| OnRejected (reason : exn)
| PassValue.

(** The promise [getFastestPromise] returned, the queue, and the inputs
    with a handler waiting. *)
Record world : Type := {
  result : promise value;
  queue : list job;
  waiting : list nat
}.

(** [resolve] and [reject] of the returned promise: the first call settles
    it, the calls after it do nothing. *)
Definition resolve (value : value) (w : world) : world :=
  match result w with
  | Pending => {| result := Fulfilled value; queue := queue w; waiting := waiting w |}
  | _ => w
  end.

Definition reject (reason : exn) (w : world) : world :=
  match result w with
  | Pending => {| result := Rejected reason; queue := queue w; waiting := waiting w |}
  | _ => w
  end.

Definition enqueue (j : job) (w : world) : world :=
  {| result := result w; queue := queue w ++ [j]; waiting := waiting w |}.

(** [promise.then((value) => resolve(value)).catch((e) => reject(e))] for
    the input at [index]. *)
Definition then_catch (w : world) (indexed : nat * promise value) : world :=
  match snd indexed with
  | Fulfilled value => enqueue (OnFulfilled value) w
  | Rejected reason => enqueue (PassRejection reason) w
  | Pending =>
    {| result := result w; queue := queue w; waiting := waiting w ++ [fst indexed] |}
  end.

(** The executor runs [forEach] and returns; the promise is pending then. *)
Definition getFastestPromise (array : list (promise value)) : world :=
  fold_left then_catch (indexed array) {| result := Pending; queue := []; waiting := [] |}.

Definition run_job (j : job) (w : world) : world :=
  match j with
  | OnFulfilled value => enqueue PassValue (resolve value w)
  | PassRejection reason => enqueue (OnRejected reason) w
  | OnRejected reason => reject reason w
  | PassValue => w
  end.

(** The queue runs first in, first out; [fuel] bounds the number of jobs. *)
Fixpoint run (fuel : nat) (w : world) : world :=
  match fuel, queue w with
  | S fuel, j :: q =>
    run fuel (run_job j {| result := result w; queue := q; waiting := waiting w |})
  | _, _ => w
  end.

(** A job queues one job at most, which queues none: twice the length of
    the queue is fuel enough to empty it. *)
Definition drain (w : world) : world := run (2 * length (queue w)) w.

(** The input at [index], pending until now, settles: the handler that
    waits on it is queued. *)
Definition settle (index : nat) (outcome : promise value) (w : world) : world :=
  if existsb (Nat.eqb index) (waiting w) then
    let w' := {| result := result w; queue := queue w;
                 waiting := filter (fun i => negb (Nat.eqb index i)) (waiting w) |} in
    match outcome with
    | Fulfilled value => enqueue (OnFulfilled value) w'
    | Rejected reason => enqueue (PassRejection reason) w'
    | Pending => w
    end
  else w.

(** Inputs that settle far from each other: the queue runs empty behind
    each of them. [schedule] below lets them settle at any moment. *)
Definition settle_all (events : list (nat * promise value)) (w : world) : world :=
  fold_left (fun w event => drain (settle (fst event) (snd event) w)) events w.

(** The reasons of the inputs that are rejected, in array order. *)
Definition rejected_reasons (array : list (promise value)) : list exn :=
  flat_map (fun p => match p with Rejected e => [e] | _ => [] end) array.

(** The state the inputs that are settled at the call lead to: the first
    value if one is fulfilled, else the first reason if one is rejected. *)
Definition fastest (array : list (promise value)) : promise value :=
  match fulfilled_values array, rejected_reasons array with
  | v :: _, _ => Fulfilled v
  | [], e :: _ => Rejected e
  | [], [] => Pending
  end.

(** The jobs the executor queues, and the jobs these queue. *)
Definition first_jobs (array : list (promise value)) : list job :=
  flat_map (fun p => match p with
                     | Fulfilled v => [OnFulfilled v]
                     | Rejected e => [PassRejection e]
                     | Pending => []
                     end) array.

Definition second_jobs (array : list (promise value)) : list job :=
  flat_map (fun p => match p with
                     | Fulfilled _ => [PassValue]
                     | Rejected e => [OnRejected e]
                     | Pending => []
                     end) array.

Definition first_fulfilled (array : list (promise value)) : promise value :=
  match fulfilled_values array with
  | v :: _ => Fulfilled v
  | [] => Pending
  end.

Definition first_rejected (array : list (promise value)) : promise value :=
  match rejected_reasons array with
  | e :: _ => Rejected e
  | [] => Pending
  end.

(** The first of [r] and [p] that is settled. *)
Definition or_else (r p : promise value) : promise value :=
  match r with
  | Pending => p
  | _ => r
  end.

(** What happens behind the call, one thing at a time: an input that was
    pending settles, or the first job of the queue runs. An input can settle
    between any two jobs, and several inputs can settle before the next job
    runs. *)
Inductive event : Type :=
| Settles (index : nat) (outcome : promise value)
| Runs.

Definition play (w : world) (e : event) : world :=
  match e with
  | Settles index outcome => settle index outcome w
  | Runs => run 1 w
  end.

Definition schedule (events : list event) (w : world) : world :=
  fold_left play events w.

(** The state of the promise [getFastestPromise] returned for [array], once
    [events] have happened and the queue has run empty. *)
Definition settles_as (array : list (promise value)) (events : list event)
  : promise value :=
  result (drain (schedule events (getFastestPromise array))).

Definition is_rejection (e : event) : bool :=
  match e with
  | Settles _ (Rejected _) => true
  | _ => false
  end.

(** The input at [index] is not among the inputs that settle in [events]. *)
Definition untouched (index : nat) (events : list event) : bool :=
  forallb (fun e => match e with
                    | Settles i _ => negb (Nat.eqb i index)
                    | Runs => true
                    end) events.

(** The first job of the queue that calls [resolve] or [reject], as the
    state it asks for. *)
Fixpoint first_call (q : list job) : promise value :=
  match q with
  | [] => Pending
  | OnFulfilled v :: _ => Fulfilled v
  | OnRejected e :: _ => Rejected e
  | _ :: q' => first_call q'
  end.

(** The state the promise is in, or the one the queue leads it to. *)
Definition decided (w : world) : promise value :=
  or_else (result w) (first_call (queue w)).

(** The jobs a job stands for: itself and the one it queues. *)
Definition job_weight (j : job) : nat :=
  match j with
  | OnFulfilled _ | PassRejection _ => 2
  | OnRejected _ | PassValue => 1
  end.

Definition weight (q : list job) : nat := list_sum (map job_weight q).

End Race.

(** * Properties *)

(** ** Strings and arrays *)

Module JsFacts.
Import Js.

Lemma append_assoc (a b c : string) : (a ++ b) ++ c = a ++ (b ++ c).
Proof.
  induction a as [|ch a IH]; simpl; [reflexivity | now rewrite IH].
Qed.

Lemma append_nil_r (a : string) : a ++ "" = a.
Proof.
  induction a as [|ch a IH]; simpl; [reflexivity | now rewrite IH].
Qed.

Lemma concat_cons (x : string) (xs : list string) :
  String.concat "" (x :: xs) = x ++ String.concat "" xs.
Proof.
  destruct xs as [|y ys]; simpl; [now rewrite append_nil_r | reflexivity].
Qed.

(** [reduce] with string concatenation builds the concatenation of the
    pieces behind the initial value. *)
Lemma reduce_append {A} (f : A -> string) (l : list A) (init : string) :
  fold_left (fun acc x => acc ++ f x) l init = init ++ String.concat "" (map f l).
Proof.
  revert init. induction l as [|x l IH]; intros init.
  - simpl. now rewrite append_nil_r.
  - cbn [fold_left map]. rewrite IH, concat_cons. apply append_assoc.
Qed.

Lemma findIndex_from_found {A} (p : A -> bool) (l : list A) (i : Z) :
  (0 <= i)%Z ->
  (findIndex_from p l i =? -1)%Z = negb (existsb p l).
Proof.
  revert i. induction l as [|x l IH]; intros i Hi; simpl.
  - reflexivity.
  - destruct (p x); simpl.
    + apply Z.eqb_neq. lia.
    + apply IH. lia.
Qed.

(** [findIndex(p) !== -1] says that some element satisfies [p]. *)
Lemma findIndex_found {A} (p : A -> bool) (l : list A) :
  negb (findIndex p l =? -1)%Z = existsb p l.
Proof.
  unfold findIndex. rewrite findIndex_from_found by lia. apply negb_involutive.
Qed.

End JsFacts.

(** ** The selector builder *)

Module CssFacts.
Import Js Css JsFacts.

Lemma invoke_handleSelector (c : call) : invoke c = handleSelector (object_of c).
Proof. destruct c as [[] name]; reflexivity. Qed.

Lemma weight_object_of (c : call) : weight (object_of c) = rank (fst c).
Proof. destruct c as [[] name]; reflexivity. Qed.

Lemma getSelectorString_object_of (c : call) :
  getSelectorString (object_of c) = fragment c.
Proof. destruct c as [[] name]; reflexivity. Qed.

Lemma isUnchainableInChain_spec (selector : selectorObject) (this : Selector) :
  isUnchainableInChain selector this =
  existsb (fun w => (w =? weight selector)%Z) unchainableSelecors
  && has_weight (weight selector) this.
Proof.
  unfold isUnchainableInChain, has_weight. now rewrite !findIndex_found.
Qed.

Lemma isUnchainableInChain_call (c : call) (this : Selector) :
  isUnchainableInChain (object_of c) this = once (fst c) && has_weight (rank (fst c)) this.
Proof.
  rewrite isUnchainableInChain_spec, weight_object_of.
  destruct c as [[] name]; reflexivity.
Qed.

(** The three ways [handleSelector] ends. *)
Lemma handleSelector_duplicate (selector : selectorObject) (this : Selector) :
  isUnchainableInChain selector this = true ->
  handleSelector selector this = (Throw (Error duplicate_message), this).
Proof.
  intros H. unfold handleSelector, checkSequence, bind, get, throw. now rewrite H.
Qed.

Lemma handleSelector_order (selector : selectorObject) (this : Selector) :
  isUnchainableInChain selector this = false ->
  (weight selector < currentSelectorWeight this)%Z ->
  handleSelector selector this = (Throw (Error order_message), this).
Proof.
  intros H Hlt. apply Z.ltb_lt in Hlt.
  unfold handleSelector, checkSequence, bind, get, throw. now rewrite H, Hlt.
Qed.

Lemma handleSelector_push (selector : selectorObject) (this : Selector) :
  isUnchainableInChain selector this = false ->
  (currentSelectorWeight this <= weight selector)%Z ->
  handleSelector selector this =
  (Normal tt, {| selectors := selectors this ++ [selector];
                 currentSelectorWeight := weight selector |}).
Proof.
  intros H Hle. apply Z.ltb_ge in Hle.
  unfold handleSelector, checkSequence, push, bind, get, put. now rewrite H, Hle.
Qed.

Lemma handleSelector_outcome (selector : selectorObject) (this : Selector) :
  outcome selector this (handleSelector selector this).
Proof.
  destruct (isUnchainableInChain selector this) eqn:Hdup.
  - rewrite handleSelector_duplicate by assumption. now constructor.
  - destruct (Z.lt_ge_cases (weight selector) (currentSelectorWeight this)) as [Hlt|Hge].
    + rewrite handleSelector_order by assumption. now constructor.
    + rewrite handleSelector_push by assumption. now constructor.
Qed.

Lemma duplicate_order_distinct : duplicate_message <> order_message.
Proof. discriminate. Qed.

(** The three ways of the call of [handleSelector] on [selector], the ones
    that contradict a hypothesis left out. *)
Ltac by_outcome selector this :=
  destruct (handleSelector_outcome selector this) as [Hdup|Hdup Hlt|Hdup Hle];
  try discriminate.

(** A chain that ran to its end pushed the object of each call, in order,
    whatever the selector already held. *)
Lemma chain_selectors (calls : list call) :
  forall this this',
    chain calls this = (Normal tt, this') ->
    selectors this' = (selectors this ++ map object_of calls)%list.
Proof.
  induction calls as [|c rest IH]; intros this this' Hrun.
  - injection Hrun as <-. simpl. now rewrite app_nil_r.
  - cbn [chain] in Hrun. unfold bind in Hrun. rewrite invoke_handleSelector in Hrun.
    by_outcome (object_of c) this.
    apply IH in Hrun. cbn [selectors] in Hrun.
    rewrite Hrun, <- app_assoc. reflexivity.
Qed.

Lemma max_weight_snoc (l : list selectorObject) (s : selectorObject) :
  (0 <= weight s)%Z ->
  max_weight (l ++ [s])%list = Z.max (max_weight l) (weight s).
Proof.
  intros Hs. unfold max_weight. induction l as [|x l IH]; simpl.
  - lia.
  - rewrite IH. lia.
Qed.

Lemma rank_nonneg (p : part) : (0 <= rank p)%Z.
Proof. destruct p; simpl; lia. Qed.

(** The cursor of a selector is the largest weight it holds: each call that
    returns keeps it so. *)
Lemma invoke_cursor_max (c : call) (this this' : Selector) :
  currentSelectorWeight this = max_weight (selectors this) ->
  invoke c this = (Normal tt, this') ->
  currentSelectorWeight this' = max_weight (selectors this').
Proof.
  intros Hinv Hrun. rewrite invoke_handleSelector in Hrun.
  by_outcome (object_of c) this.
  injection Hrun as <-. cbn [selectors currentSelectorWeight].
  rewrite max_weight_snoc by (rewrite weight_object_of; apply rank_nonneg).
  lia.
Qed.

Lemma chain_cursor_max (calls : list call) :
  forall this this',
    currentSelectorWeight this = max_weight (selectors this) ->
    chain calls this = (Normal tt, this') ->
    currentSelectorWeight this' = max_weight (selectors this').
Proof.
  induction calls as [|c rest IH]; intros this this' Hinv Hrun.
  - injection Hrun as <-. assumption.
  - cbn [chain] in Hrun. unfold bind in Hrun.
    destruct (invoke c this) as [[[]|e] mid] eqn:Hc; try discriminate.
    eapply IH; [|exact Hrun]. eapply invoke_cursor_max; eassumption.
Qed.

Lemma has_weight_In (w : Z) (this : Selector) :
  has_weight w this = true <-> exists s, In s (selectors this) /\ weight s = w.
Proof.
  unfold has_weight. rewrite existsb_exists.
  split; intros [s [Hin Hw]]; exists s; split; auto; now apply Z.eqb_eq.
Qed.

Lemma once_In (p : part) : once p = true <-> In p [PElement; PId; PPseudoElement].
Proof.
  destruct p; simpl; split; intros H; try discriminate; auto;
    repeat (destruct H as [H|H]; try discriminate); contradiction.
Qed.

Lemma has_weight_push (w : Z) (this : Selector) (selector : selectorObject) (cur : Z) :
  has_weight w {| selectors := selectors this ++ [selector]; currentSelectorWeight := cur |}
  = has_weight w this || (weight selector =? w)%Z.
Proof.
  unfold has_weight. cbn [selectors]. rewrite existsb_app. simpl. now rewrite orb_false_r.
Qed.

Lemma rank_inj (p q : part) : rank p = rank q -> p = q.
Proof. destruct p, q; simpl; intros H; try reflexivity; discriminate. Qed.

(** A sequence of calls in rank order that repeats no element, id or
    pseudo-element runs to its end, from any selector whose cursor is not
    above the first rank and that holds none of the once-only parts called. *)
Lemma chain_valid_runs (calls : list call) :
  forall this : Selector,
    StronglySorted Z.le (map (fun c => rank (fst c)) calls) ->
    NoDup (filter once (map fst calls)) ->
    Forall (fun c => (currentSelectorWeight this <= rank (fst c))%Z) calls ->
    Forall (fun c => once (fst c) = true -> has_weight (rank (fst c)) this = false) calls ->
    exists this', chain calls this = (Normal tt, this').
Proof.
  induction calls as [|c rest IH]; intros this Hsort Hnodup Hcur Hnew.
  - exists this. reflexivity.
  - cbn [map] in Hsort. apply StronglySorted_inv in Hsort as [Hsort Hhd].
    apply Forall_cons_iff in Hcur as [Hc Hcur]. apply Forall_cons_iff in Hnew as [Hn Hnew].
    assert (Hdup : isUnchainableInChain (object_of c) this = false).
    { rewrite isUnchainableInChain_call. destruct (once (fst c)); [|reflexivity].
      now rewrite Hn. }
    cbn [chain]. unfold bind. rewrite invoke_handleSelector.
    rewrite handleSelector_push by (rewrite ?weight_object_of; assumption).
    apply IH.
    + assumption.
    + cbn [map filter] in Hnodup. destruct (once (fst c)); [|assumption].
      now apply NoDup_cons_iff in Hnodup.
    + cbn [currentSelectorWeight]. rewrite weight_object_of.
      rewrite Forall_map in Hhd. exact Hhd.
    + rewrite Forall_forall in Hnew |- *. intros c' Hin Honce.
      rewrite has_weight_push, (Hnew c' Hin Honce), weight_object_of. simpl.
      apply Z.eqb_neq. intros Heq. apply rank_inj in Heq.
      cbn [map filter] in Hnodup. rewrite Heq, Honce in Hnodup.
      apply NoDup_cons_iff in Hnodup as [Hnotin _]. apply Hnotin.
      apply filter_In. split; [now apply in_map | assumption].
Qed.

(** What a chain that ran to its end stringifies to. *)
Lemma stringify_of_run (calls : list call) (this : Selector) :
  cssSelectorBuilder calls = (Normal tt, this) ->
  stringify this = String.concat "" (map fragment calls).
Proof.
  intros Hrun. unfold cssSelectorBuilder in Hrun.
  apply chain_selectors in Hrun. unfold stringify.
  rewrite Hrun. cbn [selectors new_Selector app].
  rewrite reduce_append, map_map. cbn [append].
  f_equal. apply map_ext. intros c. apply getSelectorString_object_of.
Qed.

(** C1. A sequence of calls on the builder that is in rank order and repeats
    no element, id or pseudo-element builds a selector, and the selector
    stringifies to the fragments of the calls, prefix, name and suffix,
    joined in call order with nothing between them. The objects the six
    methods build carry the delimiters of the table: none for an element, #
    for an id, a dot for a class, square brackets for an attribute, one
    colon for a pseudo-class, two for a pseudo-element. The chain element a,
    attr href$=.png (the value in double quotes), pseudoClass focus gives
    a[href$=.png]:focus (again with the quotes). *)
Theorem stringify_chain :
  (forall calls : list call,
      Sorted Z.le (map (fun c => rank (fst c)) calls) ->
      NoDup (filter once (map fst calls)) ->
      exists this,
        cssSelectorBuilder calls = (Normal tt, this)
        /\ stringify this = String.concat "" (map fragment calls))
  /\ (forall name : string,
        getSelectorString (object_of (PElement, name)) = name
        /\ getSelectorString (object_of (PId, name)) = "#" ++ name
        /\ getSelectorString (object_of (PClass, name)) = "." ++ name
        /\ getSelectorString (object_of (PAttr, name)) = "[" ++ name ++ "]"
        /\ getSelectorString (object_of (PPseudoClass, name)) = ":" ++ name
        /\ getSelectorString (object_of (PPseudoElement, name)) = "::" ++ name)
  /\ (let href := "href$=" ++ Js.quote ++ ".png" ++ Js.quote in
      exists this,
        cssSelectorBuilder [(PElement, "a"); (PAttr, href); (PPseudoClass, "focus")]
        = (Normal tt, this)
        /\ stringify this = "a[" ++ href ++ "]:focus").
Proof.
  split; [|split].
  - intros calls Hsort Hnodup.
    destruct (chain_valid_runs calls new_Selector) as [this Hrun].
    + apply Sorted_StronglySorted; [|assumption]. intros x y z. apply Z.le_trans.
    + assumption.
    + apply Forall_forall. intros c _. apply rank_nonneg.
    + apply Forall_forall. intros c _ _. reflexivity.
    + exists this. split; [exact Hrun | now apply stringify_of_run].
  - intros name. cbn. rewrite append_nil_r. repeat split; reflexivity.
  - eexists. split; reflexivity.
Qed.

(** [stringify_chain] at the chain id main, class container, class
    editable. *)
Lemma stringify_chain_witness :
  exists this,
    cssSelectorBuilder [(PId, "main"); (PClass, "container"); (PClass, "editable")]
    = (Normal tt, this)
    /\ stringify this
       = String.concat "" (map fragment [(PId, "main"); (PClass, "container"); (PClass, "editable")]).
Proof.
  apply (proj1 stringify_chain).
  - simpl. repeat constructor; lia.
  - simpl. repeat constructor. simpl. tauto.
Defined.

(** C2. Calling element, id or pseudoElement on a selector that already
    holds a part of that rank throws the error that these parts should not
    occur more than once, whatever else the selector holds and whatever its
    cursor is: the check for a repeated part comes before the check of the
    order, so the same error is thrown when the call is also out of order.
    The selector is left as it was. *)
Theorem duplicate_throws (this : Selector) (p : part) (name : string) :
  In p [PElement; PId; PPseudoElement] ->
  (exists s, In s (selectors this) /\ weight s = rank p) ->
  invoke (p, name) this = (Throw (Error duplicate_message), this).
Proof.
  intros Hp Hs. rewrite invoke_handleSelector. apply handleSelector_duplicate.
  rewrite isUnchainableInChain_call. cbn [fst].
  apply andb_true_iff. split; [now apply once_In | now apply has_weight_In].
Qed.

(** [duplicate_throws] at a second element after element div, class box:
    the call is out of order as well, and the error is the one for a
    repeated part. *)
Lemma duplicate_throws_witness :
  let this := snd (cssSelectorBuilder [(PElement, "div"); (PClass, "box")]) in
  (rank PElement < currentSelectorWeight this)%Z
  /\ invoke (PElement, "span") this = (Throw (Error duplicate_message), this).
Proof.
  split; [reflexivity|].
  apply duplicate_throws.
  - simpl. auto.
  - exists (getSelectorObject "div" [] 0). split; [simpl; auto | reflexivity].
Defined.

(** C3, as the claim states it, fails: after element div, id main the cursor
    is 1, a second element has rank 0, below it, and the error thrown is
    the one for a repeated part, not the one for the order. *)
Lemma order_error_counterexample :
  let this := snd (cssSelectorBuilder [(PElement, "div"); (PId, "main")]) in
  (rank PElement < currentSelectorWeight this)%Z
  /\ fst (invoke (PElement, "span") this) = Throw (Error duplicate_message)
  /\ fst (invoke (PElement, "span") this) <> Throw (Error order_message).
Proof.
  cbv zeta. split; [reflexivity|]. split; [reflexivity|]. discriminate.
Qed.

(** C3, amended. A call whose rank is below the cursor throws the error
    that states the order of the parts, unless it is an element, id or
    pseudo-element whose rank the selector already holds (the error for a
    repeated part is thrown then, see C2). A call whose rank equals the
    cursor never throws the order error. A call that returns leaves the
    cursor at its rank. For a selector built by the builder the cursor is
    the largest rank it holds. *)
Theorem order_check (this : Selector) (p : part) (name : string) :
  (~ (In p [PElement; PId; PPseudoElement]
      /\ exists s, In s (selectors this) /\ weight s = rank p) ->
   (rank p < currentSelectorWeight this)%Z ->
   invoke (p, name) this = (Throw (Error order_message), this))
  /\ (rank p = currentSelectorWeight this ->
      fst (invoke (p, name) this) <> Throw (Error order_message))
  /\ (forall this', invoke (p, name) this = (Normal tt, this') ->
                   currentSelectorWeight this' = rank p)
  /\ (forall calls, cssSelectorBuilder calls = (Normal tt, this) ->
                   currentSelectorWeight this = max_weight (selectors this)).
Proof.
  assert (Hbuilt : forall calls, cssSelectorBuilder calls = (Normal tt, this) ->
                                 currentSelectorWeight this = max_weight (selectors this)).
  { intros calls Hrun. now apply (chain_cursor_max calls new_Selector). }
  rewrite invoke_handleSelector.
  pose proof (isUnchainableInChain_call (p, name) this) as Hcall.
  pose proof (weight_object_of (p, name)) as Hweight. cbn [fst] in Hcall, Hweight.
  rewrite <- once_In, <- has_weight_In, <- andb_true_iff, <- Hcall, <- Hweight.
  destruct (handleSelector_outcome (object_of (p, name)) this) as [Hdup|Hdup Hlt|Hdup Hle];
    cbn [fst]; repeat split; try assumption; try lia; try discriminate.
  - intros Hnodup. contradiction.
  - intros this' [= <-]. reflexivity.
Qed.

(** [order_check] at a class called after a pseudo-class. *)
Lemma order_check_witness :
  let this := snd (cssSelectorBuilder [(PElement, "a"); (PPseudoClass, "focus")]) in
  invoke (PClass, "link") this = (Throw (Error order_message), this).
Proof.
  apply (proj1 (order_check _ PClass "link")).
  - intros [Hp _]. simpl in Hp. repeat (destruct Hp as [Hp|Hp]; try discriminate).
    contradiction.
  - reflexivity.
Defined.

(** C5. A call that throws leaves the selector as it was before the call:
    the part is not pushed, the parts and the cursor keep their values, the
    error is one of the two validation errors, and every chain of calls
    that follows ends as it would have ended had the failed call not been
    made. *)
Theorem throw_keeps_selector (this this' : Selector) (c : call) (e : exn) :
  invoke c this = (Throw e, this') ->
  (e = Error duplicate_message \/ e = Error order_message)
  /\ selectors this' = selectors this
  /\ currentSelectorWeight this' = currentSelectorWeight this
  /\ (forall calls, chain calls this' = chain calls this).
Proof.
  intros Hrun. rewrite invoke_handleSelector in Hrun.
  by_outcome (object_of c) this; injection Hrun as <- <-; auto.
Qed.

(** [throw_keeps_selector] at the two failing calls: an id repeated, and an
    element called after a class. *)
Lemma throw_keeps_selector_witness :
  let this := snd (cssSelectorBuilder [(PId, "main"); (PClass, "box")]) in
  (selectors (snd (invoke (PId, "other") this)) = selectors this
   /\ currentSelectorWeight (snd (invoke (PId, "other") this)) = 2%Z)
  /\ (selectors (snd (invoke (PElement, "div") this)) = selectors this
      /\ currentSelectorWeight (snd (invoke (PElement, "div") this)) = 2%Z).
Proof.
  cbv zeta. split.
  - destruct (throw_keeps_selector
                (snd (cssSelectorBuilder [(PId, "main"); (PClass, "box")]))
                _ (PId, "other") (Error duplicate_message) eq_refl)
      as (_ & Hs & Hc & _).
    split; [exact Hs | exact Hc].
  - destruct (throw_keeps_selector
                (snd (cssSelectorBuilder [(PId, "main"); (PClass, "box")]))
                _ (PElement, "div") (Error order_message) eq_refl)
      as (_ & Hs & Hc & _).
    split; [exact Hs | exact Hc].
Defined.

End CssFacts.

(** ** The combinator node *)

Module CombineFacts.
Import Js Css Combine.

(** The example in the comment of the builder: three nested combinators. *)
Example combine_nested :
  stringify
    (combine
       (built [(PElement, "div"); (PId, "main"); (PClass, "container"); (PClass, "draggable")])
       "+"
       (combine
          (built [(PElement, "table"); (PId, "data")])
          "~"
          (combine
             (built [(PElement, "tr"); (PPseudoClass, "nth-of-type(even)")])
             " "
             (built [(PElement, "td"); (PPseudoClass, "nth-of-type(even)")]))))
  = "div#main.container.draggable + table#data ~ tr:nth-of-type(even)   td:nth-of-type(even)".
Proof. reflexivity. Qed.

(** C4. A combiner stringifies to the string of its left operand, a space,
    the combinator, a space, and the string of its right operand, whatever
    the operands are and whatever the combinator is. With the combinator of
    one space the space it adds on each side stands next to it: three spaces
    separate the operands, and two spaces in a row occur in the result, to
    the left of the right operand and to the right of the left one. *)
Theorem combiner_stringify {A B : Type} `{Stringify A} `{Stringify B} (a : A) (b : B) :
  (forall sym : string,
      stringify (combine a sym b) = stringify a ++ " " ++ sym ++ " " ++ stringify b)
  /\ stringify (combine a " " b) = stringify a ++ "   " ++ stringify b
  /\ occurs_in "  " (stringify (combine a " " b))
  /\ (exists before, stringify (combine a " " b) = before ++ "  " ++ stringify b)
  /\ (exists after, stringify (combine a " " b) = (stringify a ++ "  ") ++ after).
Proof.
  assert (Hsym : forall sym : string,
             stringify (combine a sym b) = stringify a ++ " " ++ sym ++ " " ++ stringify b).
  { intros sym. reflexivity. }
  split; [exact Hsym|]. rewrite Hsym.
  split; [reflexivity|]. split; [|split].
  - exists (stringify a), (" " ++ stringify b). reflexivity.
  - exists (stringify a ++ " "). rewrite JsFacts.append_assoc. reflexivity.
  - exists (" " ++ stringify b). rewrite JsFacts.append_assoc. reflexivity.
Qed.

End CombineFacts.

(** ** The promises tasks *)

Module PromisesFacts.
Import Js Promises.

Lemma willYouMarryMe_true : willYouMarryMe (VBool true) = Fulfilled (VStr yes_message).
Proof. reflexivity. Qed.

Lemma willYouMarryMe_false : willYouMarryMe (VBool false) = Fulfilled (VStr no_message).
Proof. reflexivity. Qed.

Lemma willYouMarryMe_no_argument :
  willYouMarryMe VUndefined = Rejected (Error wrong_message).
Proof. reflexivity. Qed.

(** The test of [willYouMarryMe] is on [undefined] alone: every other value
    resolves, by its truthiness. *)
Lemma willYouMarryMe_defined (v : value) :
  v <> VUndefined ->
  willYouMarryMe v = Fulfilled (VStr (if truthy v then yes_message else no_message)).
Proof.
  intros Hv. destruct v; try reflexivity. contradiction.
Qed.

(** C6. [willYouMarryMe] resolves with the yes message for true and with
    the no message for false, and it rejects with the error of the wrong
    parameter when no argument is passed. For a value that is neither a
    boolean nor undefined it does not reject: null resolves with the no
    message and the number 1 with the yes message. *)
Theorem willYouMarryMe_settles :
  willYouMarryMe (VBool true) = Fulfilled (VStr yes_message)
  /\ willYouMarryMe (VBool false) = Fulfilled (VStr no_message)
  /\ willYouMarryMe VUndefined = Rejected (Error wrong_message)
  /\ willYouMarryMe VNull = Fulfilled (VStr no_message)
  /\ willYouMarryMe (VNum 1) = Fulfilled (VStr yes_message)
  /\ willYouMarryMe VNull <> Rejected (Error wrong_message).
Proof.
  repeat split; try reflexivity. discriminate.
Qed.

(** *** chainPromises *)

(** One turn of the loop, on an array that is not empty. *)
Lemma promiseLoop_cons (action : action_t) (acc : value)
  (first : promise value) (rest : list (promise value)) :
  promiseLoop action acc (first :: rest) =
  let acc := if is_undefined acc then VNull else acc in
  let next (a : value) :=
    match rest with
    | [] => (Fulfilled a, [])
    | _ :: _ => promiseLoop action a rest
    end in
  match first with
  | Fulfilled value =>
    match (if truthy acc then action acc value else Normal value) with
    | Normal newAcc => next newAcc
    | Throw _ => next acc
    end
  | Rejected _ => next acc
  | Pending => (Pending, rest)
  end.
Proof. destruct rest; reflexivity. Qed.

(** The turn for an input that settles goes on with the rest of the array,
    the first element gone. *)
Lemma promiseLoop_shift (action : action_t) (acc : value)
  (first : promise value) (rest : list (promise value)) :
  settled first = true -> rest <> [] ->
  exists acc', promiseLoop action acc (first :: rest) = promiseLoop action acc' rest.
Proof.
  intros Hfirst Hrest. rewrite promiseLoop_cons. cbv zeta.
  destruct rest as [|second rest]; [contradiction|].
  destruct first as [value|reason|]; [|eauto|discriminate].
  destruct (if truthy _ then _ else _); eauto.
Qed.

(** The returned promise is settled only with the array empty. *)
Lemma promiseLoop_settled (action : action_t) (array : list (promise value)) :
  forall acc,
    settled (fst (promiseLoop action acc array)) = true ->
    snd (promiseLoop action acc array) = [].
Proof.
  induction array as [|first rest IH]; intros acc; [reflexivity|].
  rewrite promiseLoop_cons. cbv zeta.
  destruct first as [value|reason|]; [| |discriminate].
  - destruct (if truthy _ then _ else _); destruct rest; try reflexivity; apply IH.
  - destruct rest; [reflexivity | apply IH].
Qed.

(** With every input settling, the returned promise is fulfilled. *)
Lemma promiseLoop_fulfils (action : action_t) (array : list (promise value)) :
  forall acc,
    array <> [] ->
    Forall (fun p => settled p = true) array ->
    exists v, promiseLoop action acc array = (Fulfilled v, []).
Proof.
  induction array as [|first rest IH]; intros acc Hne Hall; [contradiction|].
  apply Forall_cons_iff in Hall as [Hfirst Hall].
  assert (Hnext : forall a, exists v,
             match rest with
             | [] => (Fulfilled a, [])
             | _ :: _ => promiseLoop action a rest
             end = (Fulfilled v, [])).
  { intros a. destruct rest as [|second rest'] eqn:Hrest; [eauto|].
    apply IH; [discriminate | assumption]. }
  rewrite promiseLoop_cons. cbv zeta.
  destruct first as [value|reason|]; [|apply Hnext|discriminate].
  destruct (if truthy _ then _ else _); apply Hnext.
Qed.

(** As long as no accumulator is falsy, the loop computes the fold of the
    description. *)
Lemma promiseLoop_fold (f : value -> value -> value) (array : list (promise value)) :
  (forall a b, truthy a = true -> truthy b = true -> truthy (f a b) = true) ->
  Forall (fun p => match p with
                   | Fulfilled v => truthy v = true
                   | Rejected _ => True
                   | Pending => False
                   end) array ->
  forall o,
    array <> [] ->
    (forall a, o = Some a -> truthy a = true) ->
    promiseLoop (returns f) (acc_value o) array
    = (Fulfilled (acc_value (fold_resolved f o array)), []).
Proof.
  intros Hf Hall. induction Hall as [|first rest Hfirst Hall IH]; intros o Hne Ho;
    [contradiction|].
  assert (Hacc : (if is_undefined (acc_value o) then VNull else acc_value o) = acc_value o).
  { destruct o as [a|]; [|reflexivity]. specialize (Ho a eq_refl). now destruct a. }
  assert (Hnext : forall o', (forall a, o' = Some a -> truthy a = true) ->
             match rest with
             | [] => (Fulfilled (acc_value o'), [])
             | _ :: _ => promiseLoop (returns f) (acc_value o') rest
             end = (Fulfilled (acc_value (fold_resolved f o' rest)), [])).
  { intros o' Ho'. destruct rest as [|second rest'] eqn:Hrest; [reflexivity|].
    apply IH; [discriminate | assumption]. }
  rewrite promiseLoop_cons. cbv zeta. rewrite Hacc.
  destruct first as [value|reason|]; [| |contradiction].
  - cbn [fold_resolved]. destruct o as [a|]; cbn [acc_value truthy].
    + rewrite (Ho a eq_refl). unfold returns.
      apply (Hnext (Some (f a value))). intros ? [= <-]. apply Hf; auto.
    + apply (Hnext (Some value)). now intros ? [= <-].
  - cbn [fold_resolved]. now apply Hnext.
Qed.

(** The first call of the loop, without argument, starts from null. *)
Lemma promiseLoop_undefined (action : action_t) (array : list (promise value)) :
  promiseLoop action VUndefined array = promiseLoop action VNull array.
Proof.
  destruct array as [|first rest]; [reflexivity|]. now rewrite !promiseLoop_cons.
Qed.

(** On truthy values, with an action that keeps them truthy and inputs that
    all settle, [chainPromises] resolves to the fold of the description
    (to null when every input is rejected), the array emptied. *)
Lemma chainPromises_fold (f : value -> value -> value) (array : list (promise value)) :
  (forall a b, truthy a = true -> truthy b = true -> truthy (f a b) = true) ->
  Forall (fun p => match p with
                   | Fulfilled v => truthy v = true
                   | Rejected _ => True
                   | Pending => False
                   end) array ->
  array <> [] ->
  chainPromises array (returns f)
  = (Fulfilled (acc_value (fold_resolved f None array)), []).
Proof.
  intros Hf Hall Hne. unfold chainPromises. rewrite promiseLoop_undefined.
  apply (promiseLoop_fold f array Hf Hall None Hne). discriminate.
Qed.

(** The example in the comment of [chainPromises]: 1, 2 and 3 with the sum
    resolve to 6. *)
Example chainPromises_sum :
  chainPromises [Fulfilled (VNum 1); Fulfilled (VNum 2); Fulfilled (VNum 3)] (returns add)
  = (Fulfilled (VNum 6), []).
Proof. reflexivity. Qed.

(** A rejected input is skipped, the accumulator kept. *)
Example chainPromises_skip :
  chainPromises
    [Fulfilled (VNum 1); Rejected (Error "no"); Fulfilled (VNum 2); Rejected (Error "no")]
    (returns add)
  = (Fulfilled (VNum 3), []).
Proof. reflexivity. Qed.

(** C7. The loop tests the accumulator for truthiness to tell whether
    there was a success before. After 0 resolved, the accumulator 0 is
    falsy and the next value replaces it: 0 and 5 with the difference
    resolve to 5, where the fold of the description gives 0 - 5. On the
    empty array the returned promise is rejected with a TypeError. *)
Theorem chainPromises_falsy_accumulator :
  chainPromises [Fulfilled (VNum 0); Fulfilled (VNum 5)] (returns sub)
  = (Fulfilled (VNum 5), [])
  /\ fold_resolved sub None [Fulfilled (VNum 0); Fulfilled (VNum 5)] = Some (VNum (-5))
  /\ (exists message, fst (chainPromises [] (returns sub)) = Rejected (TypeError message)).
Proof.
  split; [reflexivity|]. split; [reflexivity|]. eexists. reflexivity.
Qed.

(** C10. [chainPromises] consumes the array it is given. Each turn of the
    loop shifts the first element out and goes on with the rest; when the
    first input never settles the array has lost it all the same. For an
    array that is not empty, the returned promise is settled only once the
    array is empty, and it does settle, fulfilled, when every input
    settles. *)
Theorem chainPromises_empties_array (array : list (promise value)) (action : action_t) :
  array <> [] ->
  (settled (fst (chainPromises array action)) = true ->
   snd (chainPromises array action) = [])
  /\ (Forall (fun p => settled p = true) array ->
      exists v, chainPromises array action = (Fulfilled v, []))
  /\ (forall acc first rest,
        settled first = true -> rest <> [] ->
        exists acc', promiseLoop action acc (first :: rest) = promiseLoop action acc' rest)
  /\ (forall acc rest, promiseLoop action acc (Pending :: rest) = (Pending, rest)).
Proof.
  intros Hne. unfold chainPromises. split; [|split; [|split]].
  - apply promiseLoop_settled.
  - now apply promiseLoop_fulfils.
  - intros acc first rest. apply promiseLoop_shift.
  - intros acc rest. now rewrite promiseLoop_cons.
Qed.

(** [chainPromises_empties_array] at an array of three inputs, the second
    rejected. *)
Lemma chainPromises_empties_array_witness :
  snd (chainPromises [Fulfilled (VNum 1); Rejected (Error "no"); Fulfilled (VNum 2)]
         (returns add)) = [].
Proof.
  apply (chainPromises_empties_array
           [Fulfilled (VNum 1); Rejected (Error "no"); Fulfilled (VNum 2)] (returns add)).
  - discriminate.
  - reflexivity.
Defined.

(** *** processAllPromises *)

(** What the executor leaves: nothing pushed, nothing read, and one job
    queued for each input that is settled, in array order. *)
Lemma forEach_then_push (l : list (nat * promise value)) :
  forall w,
    acc (fold_left then_push l w) = acc w
    /\ observed (fold_left then_push l w) = observed w
    /\ queue (fold_left then_push l w) = (queue w ++ jobs_of (map snd l))%list.
Proof.
  induction l as [|[i p] l IH]; intros w; cbn [fold_left map jobs_of flat_map].
  - now rewrite app_nil_r.
  - destruct (IH (then_push w (i, p))) as (Hacc & Hobs & Hqueue).
    rewrite Hacc, Hobs, Hqueue. unfold then_push. cbn [snd fst].
    destruct p as [v|reason|]; cbn [acc observed queue enqueue];
      rewrite <- ?app_assoc; auto.
Qed.

Lemma snd_indexed {A} (l : list A) : map snd (indexed l) = l.
Proof.
  unfold indexed. generalize 0. induction l as [|x l IH]; intros n; simpl;
    [reflexivity | now rewrite IH].
Qed.

(** The jobs of the inputs push the values of the fulfilled ones. *)
Lemma run_jobs_of (array : list (promise value)) :
  forall w,
    acc (fold_left (fun w j => run_job j w) (jobs_of array) w)
    = (acc w ++ fulfilled_values array)%list
    /\ observed (fold_left (fun w j => run_job j w) (jobs_of array) w) = observed w.
Proof.
  induction array as [|p array IH]; intros w;
    cbn [jobs_of fulfilled_values flat_map].
  - cbn. now rewrite app_nil_r.
  - rewrite fold_left_app.
    destruct (IH (fold_left (fun w j => run_job j w)
                    match p with
                    | Fulfilled v => [Push v]
                    | Rejected reason => [Unhandled reason]
                    | Pending => []
                    end w)) as [Hacc Hobs].
    fold (jobs_of array). rewrite Hacc, Hobs.
    destruct p as [v|reason|]; cbn [fold_left run_job acc observed app];
      rewrite <- ?app_assoc; auto.
Qed.

Lemma fulfilled_values_all (values : list value) :
  fulfilled_values (map Fulfilled values) = values.
Proof.
  induction values as [|v values IH]; [reflexivity|].
  cbn [map fulfilled_values flat_map app]. fold (fulfilled_values (map Fulfilled values)).
  now rewrite IH.
Qed.

Lemma fulfilled_values_length (array : list (promise value)) :
  length (fulfilled_values array) <= length array.
Proof.
  induction array as [|p array IH]; [reflexivity|].
  cbn [fulfilled_values flat_map]. fold (fulfilled_values array).
  rewrite length_app. destruct p; simpl; lia.
Qed.

Lemma fulfilled_values_missing (array : list (promise value)) (p : promise value) :
  In p array -> (forall v, p <> Fulfilled v) ->
  length (fulfilled_values array) < length array.
Proof.
  induction array as [|q array IH]; intros Hin Hp; [contradiction|].
  cbn [fulfilled_values flat_map]. fold (fulfilled_values array). rewrite length_app.
  pose proof (fulfilled_values_length array) as Hle.
  destruct Hin as [<-|Hin].
  - destruct q as [v| |]; simpl; try lia. now destruct (Hp v).
  - specialize (IH Hin Hp). destruct q; simpl; lia.
Qed.

(** The returned promise carries the array itself: an input that is
    fulfilled after the caller has read the array still pushes its value on
    it, behind the values of the inputs that follow it in the array. *)
Example processAllPromises_late_input :
  let inputs := [Fulfilled (VNum 1); Pending; Fulfilled (VNum 3)] in
  let read := drain (then_observe (snd (processAllPromises inputs))) in
  let late := drain (settle 1 (Fulfilled (VNum 2)) read) in
  observed read = [[VNum 1; VNum 3]]
  /\ acc late = [VNum 1; VNum 3; VNum 2]
  /\ observed late = [[VNum 1; VNum 3]].
Proof. repeat split. Qed.

(** C8. The promise [processAllPromises] returns is fulfilled when the call
    returns, for every array of inputs, settled or not, and it carries the
    array [acc], which is empty at that moment. The handler a caller then
    attaches runs behind the jobs the call queued, and reads in the array
    the values of the inputs that were fulfilled at the call, in array
    order: all the values when every input was fulfilled, fewer values than
    inputs when an input was pending or rejected. No input is waited for. *)
Theorem processAllPromises_resolves_at_once (array : list (promise value)) :
  fst (processAllPromises array) = Fulfilled AccRef
  /\ acc (snd (processAllPromises array)) = []
  /\ observed (drain (then_observe (snd (processAllPromises array))))
     = [fulfilled_values array]
  /\ (forall values, array = map Fulfilled values ->
      observed (drain (then_observe (snd (processAllPromises array)))) = [values])
  /\ (forall p, In p array -> (forall v, p <> Fulfilled v) ->
      forall values,
        observed (drain (then_observe (snd (processAllPromises array)))) = [values] ->
        length values < length array).
Proof.
  assert (Hobs : observed (drain (then_observe (snd (processAllPromises array))))
                 = [fulfilled_values array]).
  { unfold processAllPromises, drain, then_observe, enqueue. cbn [snd acc queue observed].
    destruct (forEach_then_push (indexed array)
                {| acc := []; queue := []; observed := []; waiting := [] |})
      as (Hacc & Hseen & Hqueue).
    rewrite Hacc, Hseen, Hqueue, snd_indexed. cbn [acc queue observed app].
    rewrite fold_left_app. cbn [fold_left run_job].
    match goal with
    | |- context [fold_left _ (jobs_of array) ?w] =>
      destruct (run_jobs_of array w) as [Hrun Hread]
    end.
    rewrite Hrun, Hread. reflexivity. }
  split; [reflexivity|]. split.
  { unfold processAllPromises. cbn [snd].
    now destruct (forEach_then_push (indexed array)
                    {| acc := []; queue := []; observed := []; waiting := [] |})
      as (-> & _). }
  split; [exact Hobs|]. split.
  - intros values ->. rewrite Hobs. now rewrite fulfilled_values_all.
  - intros p Hin Hp values. rewrite Hobs. intros [= <-].
    now apply (fulfilled_values_missing array p).
Qed.

End PromisesFacts.

(** ** JSON *)

Module JsonFacts.
Import Js Json JsFacts.
Import Decimal DecimalString.

Lemma length_append (a b : string) :
  String.length (a ++ b) = String.length a + String.length b.
Proof.
  induction a as [|ch a IH]; simpl; [reflexivity | now rewrite IH].
Qed.

(** *** Strings *)

(** The 256 characters, one by one. *)
Ltac each_ascii c := destruct c as [[|] [|] [|] [|] [|] [|] [|] [|]].

(** Reading back what [escape] wrote gives the character. *)
Lemma parse_chars_escape (c : ascii) (s : string) :
  parse_chars (escape c ++ s) = cons_char c (parse_chars s).
Proof.
  each_ascii c; reflexivity.
Qed.

Lemma parse_chars_quote_chars (s rest : string) :
  parse_chars (quote_chars s ++ String quote_char rest) = Parsed (s, rest).
Proof.
  induction s as [|c s IH]; [reflexivity|].
  cbn [quote_chars]. rewrite append_assoc, parse_chars_escape, IH. reflexivity.
Qed.

Lemma QuoteJSONString_app (s rest : string) :
  QuoteJSONString s ++ rest = String quote_char (quote_chars s ++ String quote_char rest).
Proof.
  unfold QuoteJSONString, quote. cbn [append]. now rewrite append_assoc.
Qed.

(** *** Numbers *)

Lemma span_digits_uint (u : uint) (rest : string) :
  starts_digit rest = false ->
  span_digits (NilEmpty.string_of_uint u ++ rest) = (NilEmpty.string_of_uint u, rest).
Proof.
  intros Hrest. induction u as [|u IH|u IH|u IH|u IH|u IH|u IH|u IH|u IH|u IH|u IH];
    cbn [NilEmpty.string_of_uint append span_digits];
    try (change (is_digit _) with true; cbv iota; now rewrite IH).
  destruct rest as [|c rest]; [reflexivity|].
  cbn [starts_digit] in Hrest. cbn [span_digits]. now rewrite Hrest.
Qed.

Lemma nzhead_head (u : uint) :
  match nzhead u with
  | D0 _ => False
  | _ => True
  end.
Proof. induction u; cbn [nzhead]; auto. Qed.

(** The digits of a positive number do not start with a zero. *)
Lemma to_uint_head (p : positive) :
  match Pos.to_uint p with
  | Nil | D0 _ => False
  | _ => True
  end.
Proof.
  pose proof (DecimalPos.Unsigned.to_of (Pos.to_uint p)) as Hnorm.
  rewrite DecimalPos.Unsigned.of_to in Hnorm. cbn [N.to_uint] in Hnorm.
  pose proof (DecimalPos.Unsigned.to_uint_nonnil p) as Hnil.
  destruct (Pos.to_uint p) as [|u| | | | | | | | |] eqn:Hp; auto.
  pose proof (DecimalPos.Unsigned.to_uint_nonzero p) as Hzero. rewrite Hp in Hzero.
  pose proof (nzhead_head u) as Hhead. unfold unorm in Hnorm. cbn [nzhead] in Hnorm.
  destruct (nzhead u) eqn:Hu; try discriminate; auto.
Qed.

Lemma number_of_digits_pos (negative : bool) (p : positive) :
  (Z.pos p <= max_safe_integer)%Z ->
  number_of_digits negative (NilEmpty.string_of_uint (Pos.to_uint p))
  = Parsed (JNum (if negative then Z.neg p else Z.pos p)).
Proof.
  intros Hp. unfold number_of_digits. rewrite NilEmpty.usu.
  unfold Z.of_uint. rewrite DecimalPos.Unsigned.of_to. cbn [Z.of_N].
  apply Z.leb_le in Hp. rewrite Hp.
  destruct negative; reflexivity.
Qed.

Lemma parse_digits_pos (negative : bool) (p : positive) (rest : string) :
  (Z.pos p <= max_safe_integer)%Z ->
  starts_digit rest = false -> starts_fraction rest = false ->
  parse_digits negative (NilEmpty.string_of_uint (Pos.to_uint p) ++ rest)
  = Parsed (JNum (if negative then Z.neg p else Z.pos p), rest).
Proof.
  intros Hp Hdigit Hfraction. unfold parse_digits.
  rewrite span_digits_uint by assumption.
  rewrite number_of_digits_pos by assumption. rewrite Hfraction.
  pose proof (to_uint_head p) as Hhead.
  destruct (Pos.to_uint p); try contradiction; reflexivity.
Qed.

(** The first character of the digits of a positive number is not the
    minus sign. *)
Lemma parse_number_pos (p : positive) (rest : string) :
  parse_number (NilEmpty.string_of_uint (Pos.to_uint p) ++ rest)
  = parse_digits false (NilEmpty.string_of_uint (Pos.to_uint p) ++ rest).
Proof.
  pose proof (to_uint_head p) as Hhead.
  destruct (Pos.to_uint p); try contradiction; reflexivity.
Qed.

Lemma parse_number_to_string (n : Z) (rest : string) :
  (Z.abs n <= max_safe_integer)%Z ->
  starts_digit rest = false -> starts_fraction rest = false ->
  parse_number (number_to_string n ++ rest) = Parsed (JNum n, rest).
Proof.
  intros Hn Hdigit Hfraction. unfold number_to_string.
  destruct n as [|p|p]; cbn [Z.to_int NilEmpty.string_of_int].
  - change (parse_digits false (String "0" rest) = Parsed (JNum 0, rest)).
    unfold parse_digits. cbn [span_digits]. change (is_digit "0") with true. cbv iota.
    destruct rest as [|c rest].
    + reflexivity.
    + cbn [starts_digit] in Hdigit. cbn [span_digits]. rewrite Hdigit.
      cbv iota beta. change (("0" =? "0")%char && negb ("" =? "")) with false.
      cbv iota. rewrite Hfraction. reflexivity.
  - rewrite parse_number_pos. now apply parse_digits_pos.
  - cbn [append parse_number]. change (("-" =? "-")%char) with true. cbv iota.
    now apply (parse_digits_pos true).
Qed.

(** The text of a number starts with a digit or the minus sign. *)
Lemma number_to_string_head (n : Z) :
  exists c s, number_to_string n = String c s /\ (is_digit c || (c =? "-")%char) = true.
Proof.
  unfold number_to_string. destruct n as [|p|p]; cbn [Z.to_int NilEmpty.string_of_int].
  - eexists _, _. split; reflexivity.
  - pose proof (to_uint_head p) as Hhead.
    destruct (Pos.to_uint p); try contradiction; eexists _, _; split; reflexivity.
  - eexists _, _. split; reflexivity.
Qed.

(** *** Values *)

(** Induction on a value, with the property at hand for the items of an
    array and for the values of the properties of an object. *)
Lemma json_induction (P : json -> Prop) :
  P JNull ->
  (forall b, P (JBool b)) ->
  (forall n, P (JNum n)) ->
  (forall s, P (JStr s)) ->
  (forall items, Forall P items -> P (JArr items)) ->
  (forall props, Forall (fun kv => P (snd kv)) props -> P (JObj props)) ->
  forall value, P value.
Proof.
  intros HNull HBool HNum HStr HArr HObj.
  fix IH 1. intros [|b|n|s|items|props].
  - exact HNull.
  - apply HBool.
  - apply HNum.
  - apply HStr.
  - apply HArr. induction items as [|v items IHitems]; constructor.
    + apply IH.
    + exact IHitems.
  - apply HObj. induction props as [|[k v] props IHprops]; constructor.
    + apply IH.
    + exact IHprops.
Qed.

Lemma value_start_not_ws (c : ascii) :
  value_start c = true -> is_ws c = false /\ (c =? "]")%char = false /\ (c =? "}")%char = false.
Proof.
  each_ascii c; cbv; intros H;
    repeat split; try reflexivity; discriminate.
Qed.

Lemma JSON_stringify_head (value : json) :
  exists c s, SerializeJSONProperty value = String c s /\ value_start c = true.
Proof.
  destruct value as [|[|]|n|s|items|props];
    try (eexists _, _; split; reflexivity).
  destruct (number_to_string_head n) as (c & s & Heq & Hc).
  exists c, s. split; [exact Heq|]. unfold value_start. now rewrite Hc.
Qed.

Lemma closes_not_digit (rest : string) :
  closes rest = true -> starts_digit rest = false /\ starts_fraction rest = false.
Proof.
  destruct rest as [|c rest]; [auto|].
  cbn [closes starts_digit starts_fraction].
  each_ascii c; cbv; intros H;
    split; try reflexivity; discriminate.
Qed.

(** One call of each parser. *)
Lemma parse_elements_S (fuel : nat) (s : string) :
  parse_elements (S fuel) s =
  and_then (parse_value fuel s) (fun r =>
    let (v, rest) := r in
    match skip_ws rest with
    | String c rest' =>
      if (c =? ",")%char then
        and_then (parse_elements fuel rest') (fun r' => Parsed (v :: fst r', snd r'))
      else if (c =? "]")%char then Parsed ([v], rest')
      else Malformed
    | "" => Malformed
    end).
Proof. reflexivity. Qed.

Lemma parse_members_quote (fuel : nat) (props : list (string * json)) (s1 : string) :
  parse_members (S fuel) props (String quote_char s1) =
  and_then (parse_chars s1) (fun r =>
    let (k, s2) := r in
    match skip_ws s2 with
    | String colon s3 =>
      if (colon =? ":")%char then
        and_then (parse_value fuel s3) (fun r' =>
          let (v, s4) := r' in
          let props' := set_prop props k v in
          match skip_ws s4 with
          | String c s5 =>
            if (c =? ",")%char then parse_members fuel props' s5
            else if (c =? "}")%char then Parsed (props', s5)
            else Malformed
          | "" => Malformed
          end)
      else Malformed
    | "" => Malformed
    end).
Proof. reflexivity. Qed.

Lemma parse_members_S (fuel : nat) (props : list (string * json)) (k : string) (s : string) :
  parse_members (S fuel) props (QuoteJSONString k ++ String ":" s) =
  and_then (parse_value fuel s) (fun r' =>
    let (v, s4) := r' in
    let props' := set_prop props k v in
    match skip_ws s4 with
    | String c s5 =>
      if (c =? ",")%char then parse_members fuel props' s5
      else if (c =? "}")%char then Parsed (props', s5)
      else Malformed
    | "" => Malformed
    end).
Proof.
  rewrite QuoteJSONString_app, parse_members_quote, parse_chars_quote_chars. reflexivity.
Qed.

Lemma concat_cons2 (sep x y : string) (l : list string) :
  String.concat sep (x :: y :: l) = x ++ sep ++ String.concat sep (y :: l).
Proof. reflexivity. Qed.

Lemma parse_elements_stringify (items : list json) :
  Forall round_trips items -> items <> [] ->
  forall fuel rest,
    need_list (map need items) <= fuel ->
    parse_elements fuel (String.concat "," (map SerializeJSONProperty items) ++ String "]" rest)
    = Parsed (items, rest).
Proof.
  induction 1 as [|x items Hx Hitems IH]; intros Hne fuel rest Hfuel; [contradiction|].
  cbn [map need_list fold_right] in Hfuel. fold (need_list (map need items)) in Hfuel.
  destruct fuel as [|fuel]; [lia|]. rewrite parse_elements_S.
  destruct items as [|y items].
  - cbn [map String.concat].
    rewrite Hx by (reflexivity || lia). reflexivity.
  - cbn [map]. rewrite concat_cons2, !append_assoc. cbn [append].
    rewrite Hx by (reflexivity || lia).
    change (String.concat "," (SerializeJSONProperty y :: map SerializeJSONProperty items))
      with (String.concat "," (map SerializeJSONProperty (y :: items))).
    cbn [and_then]. change (skip_ws (String "," ?s)) with (String "," s). cbv iota.
    change ((","=? ",")%char) with true. cbv iota.
    rewrite IH by (discriminate || lia). reflexivity.
Qed.

Lemma parse_members_stringify (props : list (string * json)) :
  Forall (fun kv => round_trips (snd kv)) props -> props <> [] ->
  forall done fuel rest,
    need_list (map (fun kv => let '(_, v) := kv in need v) props) <= fuel ->
    parse_members fuel done (String.concat "," (map member_text props) ++ String "}" rest)
    = Parsed (create_props done props, rest).
Proof.
  induction 1 as [|[k v] props Hv Hprops IH]; intros Hne done fuel rest Hfuel;
    [contradiction|].
  cbn [map need_list fold_right] in Hfuel.
  fold (need_list (map (fun kv => let '(_, v) := kv in need v) props)) in Hfuel.
  cbn [snd] in Hv.
  destruct fuel as [|fuel]; [lia|].
  destruct props as [|kv props].
  - cbn [map String.concat member_text]. rewrite !append_assoc. cbn [append].
    rewrite parse_members_S. rewrite Hv by (reflexivity || lia). reflexivity.
  - cbn [map]. rewrite concat_cons2. cbn [member_text]. rewrite !append_assoc. cbn [append].
    rewrite parse_members_S. rewrite Hv by (reflexivity || lia).
    change (String.concat "," (member_text kv :: map member_text props))
      with (String.concat "," (map member_text (kv :: props))).
    cbn [and_then]. change (skip_ws (String "," ?s)) with (String "," s). cbv iota.
    change ((","=? ",")%char) with true. cbv iota.
    rewrite IH by (discriminate || lia). reflexivity.
Qed.

(** *** The order of the properties *)

(** [listed_before] is a strict order. *)
Lemma listed_before_trans (a b c : string) :
  listed_before a b = true -> listed_before b c = true -> listed_before a c = true.
Proof.
  unfold listed_before.
  destruct (array_index a) as [n|], (array_index b) as [n'|], (array_index c) as [n''|];
    try discriminate; auto.
  rewrite !N.ltb_lt. lia.
Qed.

Lemma listed_before_asym (a b : string) :
  listed_before a b = true -> listed_before b a = false.
Proof.
  unfold listed_before.
  destruct (array_index a) as [n|], (array_index b) as [n'|]; try discriminate; auto.
  rewrite N.ltb_lt, N.ltb_ge. lia.
Qed.

(** A name that no name of the listing has to follow is listed last. *)
Lemma insert_prop_last (props : list (string * json)) (k : string) (v : json) :
  Forall (fun k' => listed_before k k' = false) (map fst props) ->
  insert_prop props k v = (props ++ [(k, v)])%list.
Proof.
  induction props as [|[k' v'] props IH]; intros Hlast; [reflexivity|].
  cbn [map fst] in Hlast. apply Forall_cons_iff in Hlast as [Hk' Hlast].
  cbn [insert_prop List.app]. now rewrite Hk', IH.
Qed.

Lemma has_prop_In (props : list (string * json)) (k : string) :
  has_prop props k = true <-> In k (map fst props).
Proof.
  unfold has_prop. rewrite existsb_exists, in_map_iff.
  split; intros [kv [H1 H2]]; exists kv.
  - apply String.eqb_eq in H2. auto.
  - subst k. split; [assumption | apply String.eqb_refl].
Qed.

Lemma create_props_cons (done props : list (string * json)) (k : string) (v : json) :
  create_props done ((k, v) :: props) = create_props (set_prop done k v) props.
Proof. reflexivity. Qed.

(** In a sorted list, what stands in front is related to what stands
    behind. *)
Lemma StronglySorted_middle {A} (R : A -> A -> Prop) (front behind : list A) (a : A) :
  StronglySorted R (front ++ a :: behind) -> Forall (fun x => R x a) front.
Proof.
  induction front as [|x front IH]; intros Hsorted; [constructor|].
  cbn [List.app] in Hsorted. apply StronglySorted_inv in Hsorted as [Hsorted Hx].
  constructor; [|now apply IH].
  rewrite Forall_forall in Hx. apply Hx, in_or_app. right. now left.
Qed.

(** Creating the properties of a listing in its order, behind the
    properties that stand in front of them, builds the listing. *)
Lemma create_props_listing (props : list (string * json)) :
  forall done, own_order (done ++ props) -> create_props done props = (done ++ props)%list.
Proof.
  induction props as [|[k v] props IH]; intros done Horder.
  - cbn. now rewrite app_nil_r.
  - destruct Horder as [Hnames Hsorted]. rewrite map_app in Hnames, Hsorted.
    cbn [map fst] in Hnames, Hsorted.
    assert (Hfresh : has_prop done k = false).
    { apply not_true_is_false. rewrite has_prop_In. intros Hin.
      apply NoDup_remove_2 in Hnames. rewrite in_app_iff in Hnames. tauto. }
    rewrite create_props_cons. unfold set_prop. rewrite Hfresh.
    rewrite insert_prop_last by exact (StronglySorted_middle _ _ _ _ Hsorted).
    rewrite IH; rewrite <- app_assoc; [reflexivity|].
    split; rewrite map_app; assumption.
Qed.

(** The listings that hold the array indices in ascending order and the
    other names, each once, behind them are in the order of the own
    property keys. *)
Lemma own_order_indices_first (indices names : list (string * json)) :
  Forall (fun k => array_index k <> None) (map fst indices) ->
  StronglySorted (fun k k' => listed_before k k' = true) (map fst indices) ->
  Forall (fun k => array_index k = None) (map fst names) ->
  NoDup (map fst names) ->
  own_order (indices ++ names).
Proof.
  intros Hindices Hsorted Hnames Hnodup. unfold own_order. rewrite map_app.
  assert (Hbehind : forall k k', In k' (map fst names) -> listed_before k' k = false).
  { intros k k' Hin. rewrite Forall_forall in Hnames. unfold listed_before.
    now rewrite (Hnames k' Hin). }
  induction indices as [|[k v] indices IH]; cbn [map fst List.app] in *.
  - split; [exact Hnodup|].
    clear Hnodup Hnames. induction (map fst names) as [|k l IHl]; constructor.
    + apply IHl. intros k0 k' Hin. apply Hbehind. now right.
    + apply Forall_forall. intros k' Hin. apply Hbehind. now right.
  - apply Forall_cons_iff in Hindices as [Hk Hindices].
    apply StronglySorted_inv in Hsorted as [Hsorted Hhead].
    destruct (IH Hindices Hsorted) as [IHnodup IHsorted].
    rewrite Forall_forall in Hhead, Hnames.
    split; constructor; try assumption.
    + intros Hin. apply in_app_or in Hin as [Hin|Hin].
      * pose proof (Hhead k Hin) as Hself.
        rewrite (listed_before_asym k k Hself) in Hself. discriminate.
      * now apply Hk, Hnames.
    + apply Forall_forall. intros k' Hin. apply in_app_or in Hin as [Hin|Hin].
      * now apply listed_before_asym, Hhead.
      * now apply Hbehind.
Qed.

(** The names of a listing after [insert_prop] and [replace_prop]. *)
Lemma insert_prop_In (props : list (string * json)) (k : string) (v : json) (x : string) :
  In x (map fst (insert_prop props k v)) <-> x = k \/ In x (map fst props).
Proof.
  induction props as [|[k' v'] props IH]; cbn [insert_prop map fst In].
  - intuition auto.
  - destruct (listed_before k k'); cbn [map fst In]; [|rewrite IH]; intuition auto.
Qed.

Lemma replace_prop_names (props : list (string * json)) (k : string) (v : json) :
  map fst (replace_prop props k v) = map fst props.
Proof.
  induction props as [|[k' v'] props IH]; [reflexivity|].
  cbn [replace_prop]. destruct (k' =? k)%string eqn:Hk; cbn [map fst].
  - apply String.eqb_eq in Hk. now subst k'.
  - now rewrite IH.
Qed.

(** [insert_prop] puts a new name where the order wants it. *)
Lemma insert_prop_own_order (props : list (string * json)) (k : string) (v : json) :
  ~ In k (map fst props) -> own_order props -> own_order (insert_prop props k v).
Proof.
  unfold own_order.
  induction props as [|[k' v'] props IH]; intros Hfresh [Hnames Hsorted].
  - cbn. split; repeat constructor. intros [].
  - cbn [map fst] in Hnames, Hsorted, Hfresh.
    assert (Hfresh' : k' <> k /\ ~ In k (map fst props)) by (cbn [In] in Hfresh; tauto).
    destruct Hfresh' as [Hne Hfresh'].
    apply NoDup_cons_iff in Hnames as [Hk' Hnames].
    apply StronglySorted_inv in Hsorted as [Hsorted Hhead].
    cbn [insert_prop]. destruct (listed_before k k') eqn:Hbefore; cbn [map fst].
    + split.
      * constructor; [exact Hfresh|]. now constructor.
      * constructor; [now constructor|].
        constructor; [now apply listed_before_asym|].
        rewrite Forall_forall in Hhead |- *. intros x Hx.
        destruct (listed_before x k) eqn:Hxk; [|reflexivity].
        specialize (Hhead x Hx).
        rewrite (listed_before_trans x k k' Hxk Hbefore) in Hhead. discriminate.
    + destruct IH as [IHnames IHsorted]; [exact Hfresh' | now split |].
      split.
      * constructor; [|exact IHnames]. rewrite insert_prop_In. tauto.
      * constructor; [exact IHsorted|].
        rewrite Forall_forall in Hhead |- *. intros x Hx.
        apply insert_prop_In in Hx as [->|Hx]; auto.
Qed.

(** [JSON.parse] builds every object in the order of its own property
    keys, whatever the order and the repetitions of the names in the
    text. *)
Lemma create_props_own_order (props : list (string * json)) :
  forall done, own_order done -> own_order (create_props done props).
Proof.
  induction props as [|[k v] props IH]; intros done Hdone; [exact Hdone|].
  rewrite create_props_cons. apply IH. unfold set_prop.
  destruct (has_prop done k) eqn:Hk.
  - unfold own_order. now rewrite replace_prop_names.
  - apply insert_prop_own_order; [|exact Hdone].
    rewrite <- has_prop_In, Hk. discriminate.
Qed.

(** The listings in the order of the own property keys are those that
    creating their properties one after the other builds again. *)
Lemma own_order_create_props (props : list (string * json)) :
  own_order props <-> create_props [] props = props.
Proof.
  split.
  - intros Horder. now apply (create_props_listing props []).
  - intros Hsame. rewrite <- Hsame. apply create_props_own_order.
    split; constructor.
Qed.

(** The first character of a text decides what [parse_value] parses. *)
Lemma parse_value_number (fuel : nat) (c : ascii) (s : string) :
  (is_digit c || (c =? "-")%char) = true ->
  parse_value (S fuel) (String c s) = parse_number (String c s).
Proof.
  intros Hc. assert (Hws : is_ws c = false).
  { apply value_start_not_ws. unfold value_start. now rewrite Hc. }
  cbn [parse_value skip_ws]. now rewrite Hws, Hc.
Qed.

Lemma parse_value_string (fuel : nat) (s : string) :
  parse_value (S fuel) (String quote_char s)
  = and_then (parse_chars s) (fun r => Parsed (JStr (fst r), snd r)).
Proof. reflexivity. Qed.

Lemma parse_value_array (fuel : nat) (s : string) :
  parse_value (S fuel) (String "[" s)
  = match skip_ws s with
    | String c' rest' =>
      if (c' =? "]")%char then Parsed (JArr [], rest')
      else and_then (parse_elements fuel s) (fun r => Parsed (JArr (fst r), snd r))
    | "" => Malformed
    end.
Proof. reflexivity. Qed.

Lemma parse_value_object (fuel : nat) (s : string) :
  parse_value (S fuel) (String "{" s)
  = match skip_ws s with
    | String c' rest' =>
      if (c' =? "}")%char then Parsed (JObj [], rest')
      else and_then (parse_members fuel [] s) (fun r => Parsed (JObj (fst r), snd r))
    | "" => Malformed
    end.
Proof. reflexivity. Qed.

Lemma plain_items (items : list json) :
  plain (JArr items) <-> Forall plain items.
Proof.
  cbn [plain]. induction items as [|v items IH]; cbn [fold_right].
  - split; auto.
  - rewrite IH. split; [intros [Hv Hitems]; now constructor | now inversion 1].
Qed.

Lemma plain_props (props : list (string * json)) :
  plain (JObj props) <-> own_order props /\ Forall (fun kv => plain (snd kv)) props.
Proof.
  cbn [plain]. apply and_iff_compat_l.
  induction props as [|[k v] props IH]; cbn [fold_right].
  - split; auto.
  - rewrite IH. split; [intros [Hv Hprops]; now constructor | now inversion 1].
Qed.

(** Every plain value round trips. *)
Lemma plain_round_trips (value : json) : plain value -> round_trips value.
Proof.
  induction value as [|b|n|s|items IH|props IH] using json_induction;
    intros Hplain fuel rest Hfuel Hrest;
    (destruct fuel as [|fuel]; [cbn [need] in Hfuel; lia|]).
  - reflexivity.
  - destruct b; reflexivity.
  - destruct (closes_not_digit rest Hrest) as [Hdigit Hfraction].
    cbn [SerializeJSONProperty].
    destruct (number_to_string_head n) as (c & s & Heq & Hc).
    rewrite Heq. cbn [append]. rewrite parse_value_number by assumption.
    change (String c (s ++ rest)) with (String c s ++ rest). rewrite <- Heq.
    now apply parse_number_to_string.
  - cbn [SerializeJSONProperty]. rewrite QuoteJSONString_app, parse_value_string.
    rewrite parse_chars_quote_chars. reflexivity.
  - cbn [SerializeJSONProperty]. rewrite !append_assoc. cbn [append].
    rewrite parse_value_array.
    destruct items as [|x items]; [reflexivity|].
    apply plain_items in Hplain.
    assert (Hall : Forall round_trips (x :: items)).
    { rewrite Forall_forall in IH, Hplain |- *. auto. }
    cbn [need] in Hfuel. rewrite parse_elements_stringify by (assumption || discriminate || lia).
    destruct (JSON_stringify_head x) as (c & s & Heq & Hc).
    apply value_start_not_ws in Hc as (Hws & Hclose & _).
    destruct items; cbn [map String.concat]; rewrite Heq;
      rewrite ?append_assoc; cbn [append skip_ws]; rewrite Hws, Hclose; reflexivity.
  - cbn [SerializeJSONProperty]. rewrite !append_assoc. cbn [append].
    rewrite parse_value_object.
    destruct props as [|[k v] props]; [reflexivity|].
    apply plain_props in Hplain as [Hkeys Hplain].
    assert (Hall : Forall (fun kv => round_trips (snd kv)) ((k, v) :: props)).
    { rewrite Forall_forall in IH, Hplain |- *. auto. }
    cbn [need] in Hfuel.
    change (map (fun kv => let '(k0, v0) := kv in QuoteJSONString k0 ++ ":" ++ SerializeJSONProperty v0))
      with (map member_text).
    rewrite parse_members_stringify by (assumption || discriminate || lia).
    rewrite (proj1 (own_order_create_props _) Hkeys).
    destruct props; cbn [map String.concat member_text]; unfold QuoteJSONString;
      cbn [append skip_ws]; reflexivity.
Qed.

(** *** The fuel of [JSON_parse] *)

Lemma need_list_concat {A} (f : A -> nat) (g : A -> string) (l : list A) :
  Forall (fun a => f a <= String.length (g a)) l ->
  need_list (map f l) <= S (String.length (String.concat "," (map g l))).
Proof.
  induction 1 as [|a l Ha Hl IH]; [cbn; lia|].
  cbn [map need_list fold_right]. fold (need_list (map f l)).
  destruct l as [|b l].
  - cbn [map need_list fold_right String.concat]. lia.
  - cbn [map]. rewrite concat_cons2, !length_append. cbn [map] in IH.
    cbn [String.length]. lia.
Qed.

Lemma need_length (value : json) : need value <= String.length (SerializeJSONProperty value).
Proof.
  induction value as [|b|n|s|items IH|props IH] using json_induction.
  - cbn. lia.
  - destruct b; cbn; lia.
  - destruct (JSON_stringify_head (JNum n)) as (c & t & -> & _). cbn. lia.
  - cbn. lia.
  - cbn [need SerializeJSONProperty]. rewrite !length_append. cbn [String.length append].
    pose proof (need_list_concat need SerializeJSONProperty items IH). lia.
  - cbn [need SerializeJSONProperty].
    change (map (fun kv => let '(k0, v0) := kv in QuoteJSONString k0 ++ ":" ++ SerializeJSONProperty v0))
      with (map member_text).
    rewrite !length_append. cbn [String.length].
    assert (Hall : Forall (fun kv => (let '(_, v) := kv in need v)
                                     <= String.length (member_text kv)) props).
    { eapply Forall_impl; [|exact IH]. intros [k v] Hv. cbn [snd member_text] in *.
      rewrite !length_append. lia. }
    pose proof (need_list_concat _ member_text props Hall). lia.
Qed.

(** [JSON_stringify] has a text for every plain value. *)
Lemma plain_safe_numbers (value : json) : plain value -> safe_numbers value = true.
Proof.
  induction value as [| | | |items IH|props IH] using json_induction; intros Hplain;
    try reflexivity.
  - cbn [plain safe_numbers] in *. now apply Z.leb_le.
  - apply plain_items in Hplain. cbn [safe_numbers]. apply forallb_forall.
    rewrite Forall_forall in IH, Hplain. auto.
  - apply plain_props in Hplain as [_ Hplain]. cbn [safe_numbers]. apply forallb_forall.
    rewrite Forall_forall in IH, Hplain. intros [k v] Hin.
    apply (IH (k, v) Hin), (Hplain (k, v) Hin).
Qed.

Lemma JSON_stringify_plain (value : json) :
  plain value -> JSON_stringify value = Some (SerializeJSONProperty value).
Proof.
  intros Hplain. unfold JSON_stringify. now rewrite plain_safe_numbers.
Qed.

Lemma JSON_stringify_text (value : json) (text : string) :
  JSON_stringify value = Some text -> text = SerializeJSONProperty value.
Proof.
  unfold JSON_stringify. destruct (safe_numbers value); [|discriminate]. now intros [= <-].
Qed.

(** [JSON.parse] is a left inverse of [JSON.stringify] on plain values. *)
Lemma JSON_parse_stringify (value : json) :
  plain value -> JSON_parse (SerializeJSONProperty value) = Parsed value.
Proof.
  intros Hplain. unfold JSON_parse.
  rewrite <- (append_nil_r (SerializeJSONProperty value)) at 2.
  rewrite (plain_round_trips value Hplain) by (reflexivity || pose proof (need_length value); lia).
  reflexivity.
Qed.

(** *** Every text: the parsers end, whatever the fuel above the bound *)

Lemma skip_ws_length (s : string) : String.length (skip_ws s) <= String.length s.
Proof.
  induction s as [|c s IH]; [reflexivity|].
  cbn [skip_ws]. destruct (is_ws c); cbn [String.length]; lia.
Qed.

Lemma cons_char_length (c : ascii) (p : parsed (string * string)) (n : nat) :
  (forall k rest, p = Parsed (k, rest) -> String.length rest < n) ->
  forall k rest, cons_char c p = Parsed (k, rest) -> String.length rest < n.
Proof.
  intros Hp k rest. destruct p as [[k' rest']| |]; cbn; try discriminate.
  intros [= <- <-]. now apply (Hp k').
Qed.

Lemma parse_chars_length (s : string) :
  forall k rest, parse_chars s = Parsed (k, rest) -> String.length rest < String.length s.
Proof.
  induction s as [s IH] using (well_founded_induction
    (well_founded_ltof _ String.length)). unfold ltof in IH.
  intros k rest. destruct s as [|c s]; [discriminate|].
  cbn [parse_chars].
  destruct (c =? quote_char)%char.
  { intros [= <- <-]. cbn. lia. }
  destruct (c =? backslash)%char.
  2:{ destruct (N_of_ascii c <? 32)%N; [discriminate|].
      apply cons_char_length. intros k' rest' H. apply IH in H; cbn in *; lia. }
  destruct s as [|e s]; [discriminate|].
  repeat (match goal with
          | |- context [if ?b then _ else _] => destruct b
          end;
          [apply cons_char_length; intros k' rest' H; apply IH in H; cbn in *; lia|]).
  match goal with |- context [if ?b then _ else _] => destruct b end; [|discriminate].
  destruct s as [|h1 [|h2 [|h3 [|h4 s]]]]; try discriminate.
  destruct (hex4 h1 h2 h3 h4); [|discriminate].
  destruct (_ <? _)%N; [|discriminate].
  apply cons_char_length; intros k' rest' H; apply IH in H; cbn in *; lia.
Qed.

Lemma span_digits_length (s : string) :
  String.length s = String.length (fst (span_digits s)) + String.length (snd (span_digits s)).
Proof.
  induction s as [|c s IH]; [reflexivity|].
  cbn [span_digits]. destruct (is_digit c); [|reflexivity].
  destruct (span_digits s) as [ds rest]. cbn [fst snd String.length] in *. lia.
Qed.

Lemma parse_digits_length (negative : bool) (s : string) :
  forall v rest, parse_digits negative s = Parsed (v, rest) ->
                 String.length rest < String.length s.
Proof.
  intros v rest. unfold parse_digits.
  pose proof (span_digits_length s) as Hlen.
  destruct (span_digits s) as [ds rest']. cbn [fst snd] in Hlen.
  destruct ds as [|d ds]; [discriminate|].
  destruct (_ && _); [discriminate|].
  destruct (starts_fraction rest'); [discriminate|].
  destruct (number_of_digits negative (String d ds)); cbn; try discriminate.
  intros [= <- <-]. cbn [String.length] in Hlen. lia.
Qed.

Lemma parse_number_length (s : string) :
  forall v rest, parse_number s = Parsed (v, rest) -> String.length rest < String.length s.
Proof.
  intros v rest. destruct s as [|c s]; [discriminate|]. cbn [parse_number].
  destruct (c =? "-")%char; intros H; apply parse_digits_length in H;
    cbn [String.length] in *; lia.
Qed.

Lemma expect_length (word s rest : string) :
  expect word s = Some rest -> String.length rest <= String.length s.
Proof.
  revert s. induction word as [|w word IH]; intros s.
  - intros [= <-]. lia.
  - destruct s as [|c s]; [discriminate|]. cbn [expect].
    destruct (w =? c)%char; [|discriminate]. intros H. apply IH in H. cbn. lia.
Qed.

Lemma literal_length (word : string) (value : json) (s : string) :
  forall v rest, literal word value s = Parsed (v, rest) ->
                 String.length rest <= String.length s.
Proof.
  intros v rest. unfold literal. destruct (expect word s) eqn:He; [|discriminate].
  intros [= <- <-]. now apply expect_length in He.
Qed.

Lemma parse_value_S (fuel : nat) (s : string) :
  parse_value (S fuel) s =
  match skip_ws s with
  | "" => Malformed
  | String c rest as s' =>
    if is_digit c || (c =? "-")%char then parse_number s'
    else if (c =? quote_char)%char then
      and_then (parse_chars rest) (fun r => Parsed (JStr (fst r), snd r))
    else if (c =? "[")%char then
      match skip_ws rest with
      | String c' rest' =>
        if (c' =? "]")%char then Parsed (JArr [], rest')
        else and_then (parse_elements fuel rest) (fun r => Parsed (JArr (fst r), snd r))
      | "" => Malformed
      end
    else if (c =? "{")%char then
      match skip_ws rest with
      | String c' rest' =>
        if (c' =? "}")%char then Parsed (JObj [], rest')
        else and_then (parse_members fuel [] rest) (fun r => Parsed (JObj (fst r), snd r))
      | "" => Malformed
      end
    else if (c =? "t")%char then literal "rue" (JBool true) rest
    else if (c =? "f")%char then literal "alse" (JBool false) rest
    else if (c =? "n")%char then literal "ull" JNull rest
    else Malformed
  end.
Proof. reflexivity. Qed.

Lemma parse_members_step (fuel : nat) (props : list (string * json)) (s : string) :
  parse_members (S fuel) props s =
  match skip_ws s with
  | String q s1 =>
    if (q =? quote_char)%char then
      and_then (parse_chars s1) (fun r =>
        let (k, s2) := r in
        match skip_ws s2 with
        | String colon s3 =>
          if (colon =? ":")%char then
            and_then (parse_value fuel s3) (fun r' =>
              let (v, s4) := r' in
              let props' := set_prop props k v in
              match skip_ws s4 with
              | String c s5 =>
                if (c =? ",")%char then parse_members fuel props' s5
                else if (c =? "}")%char then Parsed (props', s5)
                else Malformed
              | "" => Malformed
              end)
          else Malformed
        | "" => Malformed
        end)
    else Malformed
  | "" => Malformed
  end.
Proof. reflexivity. Qed.

(** What a parser leaves is shorter than what it was given. *)
Lemma parsers_length (fuel : nat) :
  (forall s v rest, parse_value fuel s = Parsed (v, rest) ->
                    String.length rest < String.length s)
  /\ (forall s l rest, parse_elements fuel s = Parsed (l, rest) ->
                       String.length rest < String.length s)
  /\ (forall props s l rest, parse_members fuel props s = Parsed (l, rest) ->
                             String.length rest < String.length s).
Proof.
  induction fuel as [|fuel (IHv & IHe & IHm)]; [repeat split; discriminate|].
  split; [|split].
  - intros s v rest. rewrite parse_value_S.
    pose proof (skip_ws_length s) as Hs.
    destruct (skip_ws s) as [|c s1]; [discriminate|]. cbn [String.length] in Hs.
    destruct (is_digit c || (c =? "-")%char).
    { intros H. apply parse_number_length in H. cbn [String.length] in H. lia. }
    destruct (c =? quote_char)%char.
    { destruct (parse_chars s1) as [[k r]| |] eqn:Hk; cbn; try discriminate.
      intros [= <- <-]. apply parse_chars_length in Hk. lia. }
    destruct (c =? "[")%char.
    { pose proof (skip_ws_length s1) as Hs1.
      destruct (skip_ws s1) as [|c' s2]; [discriminate|]. cbn [String.length] in Hs1.
      destruct (c' =? "]")%char; [intros [= <- <-]; lia|].
      destruct (parse_elements fuel s1) as [[l r]| |] eqn:Hl; cbn; try discriminate.
      intros [= <- <-]. apply IHe in Hl. lia. }
    destruct (c =? "{")%char.
    { pose proof (skip_ws_length s1) as Hs1.
      destruct (skip_ws s1) as [|c' s2]; [discriminate|]. cbn [String.length] in Hs1.
      destruct (c' =? "}")%char; [intros [= <- <-]; lia|].
      destruct (parse_members fuel [] s1) as [[l r]| |] eqn:Hl; cbn; try discriminate.
      intros [= <- <-]. apply IHm in Hl. lia. }
    repeat (match goal with |- context [if ?b then _ else _] => destruct b end;
            [intros H; apply literal_length in H; lia|]).
    discriminate.
  - intros s l rest. rewrite parse_elements_S.
    destruct (parse_value fuel s) as [[v r]| |] eqn:Hv; cbn [and_then]; try discriminate.
    apply IHv in Hv. pose proof (skip_ws_length r) as Hr.
    destruct (skip_ws r) as [|c r1]; [discriminate|]. cbn [String.length] in Hr.
    destruct (c =? ",")%char.
    { destruct (parse_elements fuel r1) as [[l' r']| |] eqn:Hl; cbn; try discriminate.
      intros [= <- <-]. apply IHe in Hl. lia. }
    destruct (c =? "]")%char; [|discriminate]. intros [= <- <-]. lia.
  - intros props s l rest. rewrite parse_members_step.
    pose proof (skip_ws_length s) as Hs.
    destruct (skip_ws s) as [|q s1]; [discriminate|]. cbn [String.length] in Hs.
    destruct (q =? quote_char)%char; [|discriminate].
    destruct (parse_chars s1) as [[k s2]| |] eqn:Hk; cbn [and_then]; try discriminate.
    apply parse_chars_length in Hk. pose proof (skip_ws_length s2) as Hs2.
    destruct (skip_ws s2) as [|colon s3]; [discriminate|]. cbn [String.length] in Hs2.
    destruct (colon =? ":")%char; [|discriminate].
    destruct (parse_value fuel s3) as [[v s4]| |] eqn:Hv; cbn [and_then]; try discriminate.
    apply IHv in Hv. pose proof (skip_ws_length s4) as Hs4.
    destruct (skip_ws s4) as [|c s5]; [discriminate|]. cbn [String.length] in Hs4.
    destruct (c =? ",")%char.
    { intros H. apply IHm in H. lia. }
    destruct (c =? "}")%char; [|discriminate]. intros [= <- <-]. lia.
Qed.

Lemma parse_value_empty (fuel : nat) : parse_value fuel "" = Malformed.
Proof. destruct fuel; reflexivity. Qed.

(** With fuel for twice the length of the text, more fuel changes
    nothing. *)
Lemma parsers_fuel (fuel : nat) :
  (forall s more, 2 * String.length s <= S fuel -> fuel <= more ->
                  parse_value more s = parse_value fuel s)
  /\ (forall s more, 2 * String.length s <= fuel -> fuel <= more ->
                     parse_elements more s = parse_elements fuel s)
  /\ (forall props s more, 2 * String.length s <= fuel -> fuel <= more ->
                           parse_members more props s = parse_members fuel props s).
Proof.
  induction fuel as [|fuel (IHv & IHe & IHm)].
  - split; [|split].
    + intros [|c s] more Hs _; [|cbn in Hs; lia]. now rewrite !parse_value_empty.
    + intros [|c s] [|more] Hs _; try reflexivity; try (cbn in Hs; lia).
      rewrite parse_elements_S, parse_value_empty. reflexivity.
    + intros props [|c s] [|more] Hs _; try reflexivity; cbn in Hs; lia.
  - split; [|split].
    + intros s [|more] Hs Hmore; [lia|]. rewrite !parse_value_S.
      pose proof (skip_ws_length s) as Hlen.
      destruct (skip_ws s) as [|c s1]; [reflexivity|]. cbn [String.length] in Hlen.
      pose proof (skip_ws_length s1) as Hlen1.
      rewrite (IHe s1 more) by lia. rewrite (IHm [] s1 more) by lia. reflexivity.
    + intros s [|more] Hs Hmore; [lia|]. rewrite !parse_elements_S.
      rewrite (IHv s more) by lia.
      destruct (parse_value fuel s) as [[v r]| |] eqn:Hv; cbn [and_then]; try reflexivity.
      apply (proj1 (parsers_length fuel)) in Hv. pose proof (skip_ws_length r) as Hr.
      destruct (skip_ws r) as [|c r1]; [reflexivity|]. cbn [String.length] in Hr.
      rewrite (IHe r1 more) by lia. reflexivity.
    + intros props s [|more] Hs Hmore; [lia|]. rewrite !parse_members_step.
      pose proof (skip_ws_length s) as Hlen.
      destruct (skip_ws s) as [|q s1]; [reflexivity|]. cbn [String.length] in Hlen.
      destruct (q =? quote_char)%char; [|reflexivity].
      destruct (parse_chars s1) as [[k s2]| |] eqn:Hk; cbn [and_then]; try reflexivity.
      apply parse_chars_length in Hk. pose proof (skip_ws_length s2) as Hs2.
      destruct (skip_ws s2) as [|colon s3]; [reflexivity|]. cbn [String.length] in Hs2.
      destruct (colon =? ":")%char; [|reflexivity].
      rewrite (IHv s3 more) by lia.
      destruct (parse_value fuel s3) as [[v s4]| |] eqn:Hv; cbn [and_then]; try reflexivity.
      apply (proj1 (parsers_length fuel)) in Hv. pose proof (skip_ws_length s4) as Hs4.
      destruct (skip_ws s4) as [|c s5]; [reflexivity|]. cbn [String.length] in Hs4.
      rewrite (IHm (set_prop props k v) s5 more) by lia. reflexivity.
Qed.

(** [JSON_parse] does not depend on its fuel: every larger one gives the
    same result. *)
Lemma JSON_parse_fuel (text : string) (fuel : nat) :
  2 * String.length text <= fuel ->
  parse_value fuel text = parse_value (2 * String.length text) text.
Proof.
  intros Hfuel. apply (proj1 (parsers_fuel (2 * String.length text))); lia.
Qed.

End JsonFacts.

(** ** The builder: which chains it accepts, and where a chain ends *)

Module BuilderFacts.
Import Js Css JsFacts CssFacts Combine.

Lemma chain_app (before after : list call) (this : Selector) :
  chain (before ++ after) this =
  match chain before this with
  | (Normal _, mid) => chain after mid
  | (Throw e, mid) => (Throw e, mid)
  end.
Proof.
  revert this. induction before as [|c before IH]; intros this; [reflexivity|].
  cbn [List.app chain]. unfold bind.
  destruct (invoke c this) as [[[]|e] mid]; [apply IH | reflexivity].
Qed.

(** A chain that ran to its end was in rank order, from the cursor up, and
    repeated no once-only part, nor called one the selector held. *)
Lemma chain_runs_valid (calls : list call) :
  forall this this',
    chain calls this = (Normal tt, this') ->
    Sorted Z.le (map (fun c => rank (fst c)) calls)
    /\ Forall (fun c => (currentSelectorWeight this <= rank (fst c))%Z) calls
    /\ NoDup (filter once (map fst calls))
    /\ Forall (fun c => once (fst c) = true -> has_weight (rank (fst c)) this = false) calls.
Proof.
  induction calls as [|c rest IH]; intros this this' Hrun.
  - repeat split; constructor.
  - cbn [chain] in Hrun. unfold bind in Hrun. rewrite invoke_handleSelector in Hrun.
    by_outcome (object_of c) this.
    rewrite weight_object_of in Hle. rewrite isUnchainableInChain_call in Hdup.
    apply IH in Hrun as (Hsorted & Hfrom & Hnodup & Hnew).
    cbn [currentSelectorWeight] in Hfrom. rewrite weight_object_of in Hfrom.
    assert (Hfresh : Forall (fun c' => once (fst c') = true -> fst c' <> fst c) rest).
    { rewrite Forall_forall in Hnew |- *. intros c' Hin Honce Heq.
      specialize (Hnew c' Hin Honce). rewrite has_weight_push in Hnew.
      apply orb_false_iff in Hnew as [_ Hne]. rewrite weight_object_of, Heq in Hne.
      now rewrite Z.eqb_refl in Hne. }
    split; [|split; [|split]].
    + cbn [map]. constructor; [assumption|].
      destruct rest as [|c' rest']; constructor. now inversion Hfrom.
    + constructor; [assumption|]. eapply Forall_impl; [|exact Hfrom].
      intros c' Hc'. cbn beta in Hc'. lia.
    + cbn [map filter]. destruct (once (fst c)) eqn:Honce; [|assumption].
      constructor; [|assumption]. intros Hin. apply filter_In in Hin as [Hin Ho].
      apply in_map_iff in Hin as (c' & Heq & Hin').
      rewrite Forall_forall in Hfresh. apply (Hfresh c' Hin'); congruence.
    + constructor.
      * intros Honce. now rewrite Honce in Hdup.
      * rewrite Forall_forall in Hnew |- *. intros c' Hin Honce.
        specialize (Hnew c' Hin Honce). rewrite has_weight_push in Hnew.
        now apply orb_false_iff in Hnew.
Qed.

(** X1. The builder accepts a sequence of calls exactly when the sequence
    is in rank order and repeats no element, id or pseudo-element: a chain
    runs to its end without a throw if and only if it is valid. *)
Theorem builder_accepts_iff_valid (calls : list call) :
  (exists this, cssSelectorBuilder calls = (Normal tt, this))
  <-> Sorted Z.le (map (fun c => rank (fst c)) calls)
      /\ NoDup (filter once (map fst calls)).
Proof.
  split.
  - intros [this Hrun]. apply chain_runs_valid in Hrun. tauto.
  - intros [Hsorted Hnodup]. apply chain_valid_runs.
    + apply Sorted_StronglySorted; [|assumption]. intros x y z. apply Z.le_trans.
    + assumption.
    + apply Forall_forall. intros c _. apply rank_nonneg.
    + apply Forall_forall. intros c _ _. reflexivity.
Qed.

(** X2. A chain ends at its first call that throws: the error is the one of
    that call, the selector holds the parts of the calls before it and no
    other, and the calls behind it are not made. *)
Theorem chain_stops_at_throw (before after : list call) (c : call)
  (this mid : Selector) (e : exn) :
  chain before this = (Normal tt, mid) ->
  fst (invoke c mid) = Throw e ->
  chain (before ++ c :: after) this = (Throw e, mid)
  /\ selectors mid = (selectors this ++ map object_of before)%list.
Proof.
  intros Hbefore Hthrow. split; [|now apply chain_selectors].
  rewrite chain_app, Hbefore. cbn [chain]. unfold bind.
  rewrite invoke_handleSelector in Hthrow |- *.
  by_outcome (object_of c) mid; cbn [fst] in Hthrow; congruence.
Qed.

Lemma chain_stops_at_throw_witness :
  chain ([(PElement, "div"); (PClass, "box")] ++ (PId, "main") :: [(PClass, "late")])
    new_Selector
  = (Throw (Error order_message), built [(PElement, "div"); (PClass, "box")]).
Proof.
  apply (chain_stops_at_throw [(PElement, "div"); (PClass, "box")] [(PClass, "late")]
           (PId, "main") new_Selector (built [(PElement, "div"); (PClass, "box")])
           (Error order_message)); reflexivity.
Defined.

(** X3. Calls that return only add to the string of a selector: the string
    after them is the string before them followed by the fragments of the
    calls, whatever the selector held. *)
Theorem stringify_grows (calls : list call) (this this' : Selector) :
  chain calls this = (Normal tt, this') ->
  Css.stringify this' = Css.stringify this ++ String.concat "" (map fragment calls).
Proof.
  intros Hrun. apply chain_selectors in Hrun. unfold Css.stringify.
  rewrite Hrun, fold_left_app, !reduce_append, map_map. cbn [append].
  f_equal. f_equal. apply map_ext. intros c. apply getSelectorString_object_of.
Qed.

Lemma stringify_grows_witness :
  Css.stringify (built [(PElement, "a"); (PClass, "x"); (PClass, "y")])
  = Css.stringify (built [(PElement, "a")]) ++ String.concat "" (map fragment [(PClass, "x"); (PClass, "y")]).
Proof.
  apply (stringify_grows [(PClass, "x"); (PClass, "y")]). reflexivity.
Defined.

(** X4. A pseudo-element ends a selector: once a chain on the builder has
    called pseudoElement, every further call throws, and leaves the selector
    as it is. *)
Theorem pseudoElement_is_last (calls : list call) (this : Selector) (c : call) :
  cssSelectorBuilder calls = (Normal tt, this) ->
  In PPseudoElement (map fst calls) ->
  exists e, invoke c this = (Throw e, this).
Proof.
  intros Hrun Hin. unfold cssSelectorBuilder in Hrun.
  pose proof (chain_cursor_max calls new_Selector this eq_refl Hrun) as Hcursor.
  apply chain_selectors in Hrun. cbn [selectors new_Selector List.app] in Hrun.
  assert (Hheld : has_weight 5 this = true).
  { apply has_weight_In. apply in_map_iff in Hin as (c' & Hc' & Hin).
    exists (object_of c'). split.
    - rewrite Hrun. now apply in_map.
    - rewrite weight_object_of, Hc'. reflexivity. }
  assert (Hmax : (5 <= currentSelectorWeight this)%Z).
  { rewrite Hcursor. apply has_weight_In in Hheld as (s & Hs & Hw).
    clear -Hs Hw. unfold max_weight. induction (selectors this) as [|x l IH]; [contradiction|].
    cbn [map fold_right]. destruct Hs as [->|Hs]; [lia | specialize (IH Hs); lia]. }
  rewrite invoke_handleSelector.
  by_outcome (object_of c) this; eauto.
  rewrite weight_object_of in Hle. rewrite isUnchainableInChain_call in Hdup.
  destruct c as [[] name]; cbn [fst rank once] in *; try lia.
  rewrite Hheld in Hdup. discriminate.
Qed.

Lemma pseudoElement_is_last_witness :
  exists e, invoke (PClass, "late") (built [(PElement, "p"); (PPseudoElement, "first-line")])
            = (Throw e, built [(PElement, "p"); (PPseudoElement, "first-line")]).
Proof.
  apply (pseudoElement_is_last [(PElement, "p"); (PPseudoElement, "first-line")]).
  - reflexivity.
  - simpl. auto.
Defined.

(** X5. A tree of combiners stringifies flat: grouping to the left or to
    the right gives the same string, and no mark of the grouping is
    written. *)
Theorem combine_flattens {A B C : Type} `{Stringify A} `{Stringify B} `{Stringify C}
  (a : A) (b : B) (c : C) (s t : string) :
  stringify (combine (combine a s b) t c) = stringify (combine a s (combine b t c)).
Proof.
  change (stringify (combine (combine a s b) t c))
    with ((stringify a ++ " " ++ s ++ " " ++ stringify b) ++ " " ++ t ++ " " ++ stringify c).
  change (stringify (combine a s (combine b t c)))
    with (stringify a ++ " " ++ s ++ " " ++ (stringify b ++ " " ++ t ++ " " ++ stringify c)).
  now rewrite !append_assoc.
Qed.

End BuilderFacts.

(** ** chainPromises: one input after the other *)

Module SequenceFacts.
Import Js Promises Inputs PromisesFacts.

(** The default of the parameter [acc] is applied once more to no effect. *)
Lemma promiseLoop_default (action : action_t) (acc : value) (array : list (promise value)) :
  promiseLoop action (if is_undefined acc then VNull else acc) array
  = promiseLoop action acc array.
Proof.
  destruct array as [|first rest]; [reflexivity|].
  rewrite !promiseLoop_cons. now destruct acc.
Qed.

Lemma promiseLoop_waits (action : action_t) (before after : list (promise value)) :
  Forall (fun p => settled p = true) before ->
  forall acc, promiseLoop action acc (before ++ Pending :: after) = (Pending, after).
Proof.
  induction 1 as [|first before Hfirst Hbefore IH]; intros acc.
  - cbn [List.app]. now rewrite promiseLoop_cons.
  - cbn [List.app]. rewrite promiseLoop_cons. cbv zeta.
    destruct (before ++ Pending :: after)%list as [|second rest] eqn:Hrest.
    { now destruct before. }
    destruct first as [value|reason|]; [|apply IH|discriminate].
    destruct (if truthy _ then _ else _); apply IH.
Qed.

(** X6. [chainPromises] takes the inputs strictly one after the other: when
    the inputs before some input settle and that input never does, the
    returned promise never settles, and the inputs behind it are still in
    the array, never looked at. *)
Theorem chainPromises_waits (action : action_t) (before after : list (promise value)) :
  Forall (fun p => settled p = true) before ->
  chainPromises (before ++ Pending :: after) action = (Pending, after).
Proof.
  intros Hbefore. now apply promiseLoop_waits.
Qed.

Lemma chainPromises_waits_witness :
  chainPromises ([Fulfilled (VNum 1); Rejected (Error "no")] ++ Pending :: [Fulfilled (VNum 2)])
    (returns add)
  = (Pending, [Fulfilled (VNum 2)]).
Proof.
  apply chainPromises_waits. repeat constructor.
Defined.

Lemma promiseLoop_drop_rejected (action : action_t) (body : list (promise value))
  (last : promise value) :
  is_rejected last = false ->
  forall acc,
    fst (promiseLoop action acc (body ++ [last]))
    = fst (promiseLoop action acc (drop_rejected body ++ [last])).
Proof.
  intros Hlast. induction body as [|first body IH]; intros acc; [reflexivity|].
  cbn [List.app]. rewrite promiseLoop_cons. cbv zeta.
  assert (Hnext : forall a,
             fst match (body ++ [last])%list with
                 | [] => (Fulfilled a, [])
                 | _ :: _ => promiseLoop action a (body ++ [last])
                 end
             = fst (promiseLoop action a (drop_rejected body ++ [last]))).
  { intros a. rewrite <- IH. now destruct body. }
  destruct first as [value|reason|].
  - cbn [drop_rejected filter is_rejected negb List.app]. fold (drop_rejected body).
    rewrite promiseLoop_cons. cbv zeta.
    assert (Hsame : forall a,
               match (drop_rejected body ++ [last])%list with
               | [] => (Fulfilled a, [])
               | _ :: _ => promiseLoop action a (drop_rejected body ++ [last])
               end = promiseLoop action a (drop_rejected body ++ [last])).
    { intros a. now destruct (drop_rejected body). }
    destruct (if truthy _ then _ else _); rewrite Hsame; apply Hnext.
  - cbn [drop_rejected filter is_rejected negb]. fold (drop_rejected body).
    rewrite Hnext. now rewrite promiseLoop_default.
  - reflexivity.
Qed.

(** X7. A rejected input that is not the last one leaves no trace: the
    promise [chainPromises] returns ends in the same state as for the array
    without its rejected inputs, when the last input is not a rejected
    one. *)
Theorem chainPromises_skips_rejected (action : action_t) (body : list (promise value))
  (last : promise value) :
  is_rejected last = false ->
  fst (chainPromises (body ++ [last]) action)
  = fst (chainPromises (drop_rejected body ++ [last]) action).
Proof.
  intros Hlast. now apply promiseLoop_drop_rejected.
Qed.

Lemma chainPromises_skips_rejected_witness :
  fst (chainPromises ([Rejected (Error "a"); Fulfilled (VNum 1); Rejected (Error "b")]
                        ++ [Fulfilled (VNum 2)]) (returns add))
  = fst (chainPromises ([Fulfilled (VNum 1)] ++ [Fulfilled (VNum 2)]) (returns add)).
Proof.
  apply (chainPromises_skips_rejected (returns add)
           [Rejected (Error "a"); Fulfilled (VNum 1); Rejected (Error "b")]).
  reflexivity.
Defined.

Lemma promiseLoop_all_rejected (action : action_t) (array : list (promise value)) :
  array <> [] -> Forall (fun p => is_rejected p = true) array ->
  forall acc,
    promiseLoop action acc array = (Fulfilled (if is_undefined acc then VNull else acc), []).
Proof.
  intros Hne Hall. induction Hall as [|first rest Hfirst Hrest IH]; intros acc;
    [contradiction|].
  rewrite promiseLoop_cons. cbv zeta.
  destruct first as [|reason|]; try discriminate.
  destruct rest as [|second rest]; [reflexivity|].
  rewrite IH by discriminate. now destruct acc.
Qed.

(** X8. When every input is rejected, [chainPromises] does not reject: it
    resolves with null, the array emptied. *)
Theorem chainPromises_all_rejected (action : action_t) (array : list (promise value)) :
  array <> [] -> Forall (fun p => is_rejected p = true) array ->
  chainPromises array action = (Fulfilled VNull, []).
Proof.
  intros Hne Hall. unfold chainPromises. now rewrite promiseLoop_all_rejected.
Qed.

Lemma chainPromises_all_rejected_witness :
  chainPromises [Rejected (Error "a"); Rejected (TypeError "b")] (returns add)
  = (Fulfilled VNull, []).
Proof.
  apply chainPromises_all_rejected; [discriminate | repeat constructor].
Defined.

(** X9. The action is consulted on a truthy accumulator only, and so never
    for the first input that resolves: two actions that agree whenever
    their first argument is truthy give the same result. *)
Theorem chainPromises_action_truthy (action action' : action_t) (array : list (promise value)) :
  (forall a b, truthy a = true -> action a b = action' a b) ->
  chainPromises array action = chainPromises array action'.
Proof.
  intros Hsame. unfold chainPromises. generalize VUndefined as acc.
  induction array as [|first rest IH]; intros acc; [reflexivity|].
  rewrite !promiseLoop_cons. cbv zeta.
  destruct first as [value|reason|]; [| |reflexivity].
  - destruct (truthy (if is_undefined acc then VNull else acc)) eqn:Hacc.
    + rewrite <- Hsame by assumption.
      destruct (action _ value); destruct rest; try reflexivity; apply IH.
    + destruct rest; [reflexivity | apply IH].
  - destruct rest; [reflexivity | apply IH].
Qed.

Lemma chainPromises_action_truthy_witness :
  chainPromises [Fulfilled (VNum 2); Fulfilled (VNum 3)] (returns add)
  = chainPromises [Fulfilled (VNum 2); Fulfilled (VNum 3)]
      (fun a b => if truthy a then Normal (add a b) else Throw (Error "never called")).
Proof.
  apply chainPromises_action_truthy. intros a b Ha. now rewrite Ha.
Defined.

End SequenceFacts.

(** ** processAllPromises: the inputs that settle late *)

Module LateFacts.
Import Js Promises Inputs PromisesFacts.

(** The handlers left waiting by the executor are those of the inputs that
    were pending. *)
Lemma forEach_waiting (l : list (promise value)) :
  forall (n : nat) (w : world) (i : nat),
    In i (waiting w) \/ (n <= i /\ nth_error l (i - n) = Some Pending) ->
    In i (waiting (fold_left then_push (combine (seq n (length l)) l) w)).
Proof.
  induction l as [|p l IH]; intros n w i Hi.
  - destruct Hi as [Hi|[_ Hi]]; [exact Hi|]. now destruct (i - n).
  - cbn [length seq combine fold_left]. apply IH.
    destruct Hi as [Hi|[Hn Hi]].
    + left. unfold then_push. cbn [snd fst].
      destruct p; cbn [waiting enqueue]; [assumption|assumption|].
      apply in_or_app. now left.
    + destruct (Nat.eq_dec i n) as [->|Hne].
      * left. rewrite Nat.sub_diag in Hi. cbn [nth_error] in Hi. injection Hi as ->.
        unfold then_push. cbn [snd fst waiting]. apply in_or_app. right. now left.
      * right. split; [lia|]. replace (i - n) with (S (i - S n)) in Hi by lia.
        exact Hi.
Qed.

Lemma processAllPromises_waiting (array : list (promise value)) (i : nat) :
  nth_error array i = Some Pending ->
  In i (waiting (snd (processAllPromises array))).
Proof.
  intros Hi. unfold processAllPromises, indexed. cbn [snd].
  apply forEach_waiting. right. split; [lia|]. now rewrite Nat.sub_0_r.
Qed.

(** One pending input settles, with the queue empty before: its value, if
    it has one, is pushed behind the others, and nothing else changes. *)
Lemma settle_drain (i : nat) (outcome : promise value) (w : world) :
  queue w = [] -> In i (waiting w) ->
  queue (drain (settle i outcome w)) = []
  /\ observed (drain (settle i outcome w)) = observed w
  /\ acc (drain (settle i outcome w)) = (acc w ++ fulfilled_values [outcome])%list
  /\ (forall j, j <> i -> In j (waiting w) -> In j (waiting (drain (settle i outcome w)))).
Proof.
  intros Hqueue Hi. unfold settle.
  assert (Hin : existsb (Nat.eqb i) (waiting w) = true).
  { apply existsb_exists. exists i. split; [assumption | apply Nat.eqb_refl]. }
  rewrite Hin.
  assert (Hkeep : forall j, j <> i -> In j (waiting w) ->
                            In j (filter (fun k => negb (Nat.eqb i k)) (waiting w))).
  { intros j Hj Hjw. apply filter_In. split; [assumption|].
    apply negb_true_iff, Nat.eqb_neq. congruence. }
  destruct outcome as [v|reason|]; unfold drain, enqueue;
    cbn [queue acc observed waiting]; rewrite Hqueue;
    cbn [List.app fold_left run_job queue acc observed waiting fulfilled_values flat_map];
    rewrite ?app_nil_r; auto.
Qed.

Lemma settle_all_values (events : list (nat * promise value)) :
  forall w,
    queue w = [] ->
    NoDup (map fst events) ->
    Forall (fun event => In (fst event) (waiting w)) events ->
    acc (settle_all events w) = (acc w ++ fulfilled_values (map snd events))%list
    /\ observed (settle_all events w) = observed w.
Proof.
  induction events as [|[i outcome] events IH]; intros w Hqueue Hnodup Hwaiting.
  - cbn. now rewrite app_nil_r.
  - cbn [map fst] in Hnodup. apply NoDup_cons_iff in Hnodup as [Hfresh Hnodup].
    apply Forall_cons_iff in Hwaiting as [Hi Hwaiting]. cbn [fst] in Hi.
    destruct (settle_drain i outcome w Hqueue Hi) as (Hq & Hobs & Hacc & Hkeep).
    unfold settle_all. cbn [fold_left fst snd].
    fold (settle_all events (drain (settle i outcome w))).
    destruct (IH (drain (settle i outcome w))) as [Hacc' Hobs']; [assumption|assumption| |].
    + rewrite Forall_forall in Hwaiting |- *. intros [j o] Hin. cbn [fst].
      apply Hkeep; [|now apply (Hwaiting (j, o))].
      intros ->. apply Hfresh. apply in_map_iff. now exists (i, o).
    + rewrite Hacc', Hobs', Hacc, Hobs. split; [|reflexivity].
      cbn [map snd fulfilled_values flat_map]. fold (fulfilled_values (map snd events)).
      cbn [fulfilled_values flat_map]. now rewrite app_nil_r, <- app_assoc.
Qed.

Lemma run_jobs_frame (jobs : list job) :
  forall w,
    queue (fold_left (fun w j => run_job j w) jobs w) = queue w
    /\ waiting (fold_left (fun w j => run_job j w) jobs w) = waiting w.
Proof.
  induction jobs as [|j jobs IH]; intros w; [split; reflexivity|].
  cbn [fold_left]. destruct (IH (run_job j w)) as [-> ->]. now destruct j.
Qed.

(** The world in which the caller has read the array. *)
Lemma processAllPromises_read (array : list (promise value)) :
  let w := drain (then_observe (snd (processAllPromises array))) in
  queue w = []
  /\ acc w = fulfilled_values array
  /\ observed w = [fulfilled_values array]
  /\ waiting w = waiting (snd (processAllPromises array)).
Proof.
  cbv zeta. unfold drain, then_observe, enqueue. cbn [acc queue observed waiting].
  match goal with
  | |- context [fold_left _ ?jobs ?w0] =>
    destruct (run_jobs_frame jobs w0) as [Hqueue Hwaiting]
  end.
  rewrite Hqueue, Hwaiting. cbn [queue waiting].
  split; [reflexivity|]. split; [|split; [|reflexivity]];
    unfold processAllPromises; cbn [snd];
    destruct (forEach_then_push (indexed array)
                {| acc := []; queue := []; observed := []; waiting := [] |})
      as (Hacc & Hseen & Hjobs);
    rewrite Hacc, Hseen, Hjobs, snd_indexed; cbn [acc queue observed List.app];
    rewrite fold_left_app; cbn [fold_left run_job];
    match goal with
    | |- context [fold_left _ (jobs_of array) ?w0] =>
      destruct (run_jobs_of array w0) as [Hrun Hread]
    end; cbn [acc observed]; rewrite ?Hrun, ?Hread; reflexivity.
Qed.

(** X10. The array the promise of [processAllPromises] carries goes on
    growing behind the caller: each input that was pending at the call and
    is fulfilled later pushes its value at the end, in the order the inputs
    settle and not in the order of the array, while what the caller read at
    first stays as it was read. *)
Theorem processAllPromises_late_values (array : list (promise value))
  (events : list (nat * promise value)) :
  NoDup (map fst events) ->
  Forall (fun event => nth_error array (fst event) = Some Pending) events ->
  acc (settle_all events (drain (then_observe (snd (processAllPromises array)))))
  = (fulfilled_values array ++ fulfilled_values (map snd events))%list
  /\ observed (settle_all events (drain (then_observe (snd (processAllPromises array)))))
     = [fulfilled_values array].
Proof.
  intros Hnodup Hpending.
  destruct (processAllPromises_read array) as (Hqueue & Hacc & Hread & Hwaiting).
  destruct (settle_all_values events
              (drain (then_observe (snd (processAllPromises array)))))
    as [Hlate Hseen]; [assumption|assumption| |].
  - rewrite Hwaiting. eapply Forall_impl; [|exact Hpending].
    intros [i outcome]. apply processAllPromises_waiting.
  - now rewrite Hlate, Hseen, Hacc, Hread.
Qed.

Lemma processAllPromises_late_values_witness :
  acc (settle_all [(2, Fulfilled (VNum 30)); (0, Rejected (Error "no")); (1, Fulfilled (VNum 20))]
         (drain (then_observe (snd (processAllPromises [Pending; Pending; Pending; Fulfilled (VNum 4)])))))
  = [VNum 4; VNum 30; VNum 20].
Proof.
  apply (processAllPromises_late_values [Pending; Pending; Pending; Fulfilled (VNum 4)]
           [(2, Fulfilled (VNum 30)); (0, Rejected (Error "no")); (1, Fulfilled (VNum 20))]).
  - cbn. repeat constructor; cbn; intuition discriminate.
  - repeat constructor.
Defined.

End LateFacts.

(** ** getFastestPromise *)

Module RaceFacts.
Import Js Promises Race.

Lemma run_add (a b : nat) (w : world) : run (a + b) w = run b (run a w).
Proof.
  revert w. induction a as [|a IH]; intros w; [reflexivity|].
  cbn [Nat.add run]. destruct (queue w) as [|j q] eqn:Hq.
  - destruct b; cbn [run]; now rewrite ?Hq.
  - apply IH.
Qed.

Lemma forEach_then_catch (l : list (nat * promise value)) :
  forall w,
    result (fold_left then_catch l w) = result w
    /\ queue (fold_left then_catch l w) = (queue w ++ first_jobs (map snd l))%list.
Proof.
  induction l as [|[i p] l IH]; intros w; cbn [fold_left map first_jobs flat_map].
  - now rewrite app_nil_r.
  - destruct (IH (then_catch w (i, p))) as (Hresult & Hqueue).
    rewrite Hresult, Hqueue. unfold then_catch. cbn [snd fst].
    destruct p as [v|reason|]; cbn [result queue enqueue];
      rewrite <- ?app_assoc; auto.
Qed.

Lemma or_else_pending (r : promise value) : or_else r Pending = r.
Proof. now destruct r. Qed.

Lemma or_else_assoc (r p q : promise value) :
  or_else (or_else r p) q = or_else r (or_else p q).
Proof. now destruct r. Qed.

Lemma resolve_or_else (v : value) (r : promise value) (q : list job) (ws : list nat) :
  resolve v {| result := r; queue := q; waiting := ws |}
  = {| result := or_else r (Fulfilled v); queue := q; waiting := ws |}.
Proof. now destruct r. Qed.

Lemma reject_or_else (e : exn) (r : promise value) (q : list job) (ws : list nat) :
  reject e {| result := r; queue := q; waiting := ws |}
  = {| result := or_else r (Rejected e); queue := q; waiting := ws |}.
Proof. now destruct r. Qed.

(** The jobs of the executor run: the first fulfilled input settles the
    promise, and the jobs they queue stand behind what was queued. *)
Lemma run_first_jobs (l : list (promise value)) :
  forall r behind ws,
    run (length (first_jobs l))
      {| result := r; queue := first_jobs l ++ behind; waiting := ws |}
    = {| result := or_else r (first_fulfilled l);
         queue := behind ++ second_jobs l; waiting := ws |}.
Proof.
  induction l as [|p l IH]; intros r behind ws.
  - cbn. now rewrite or_else_pending, app_nil_r.
  - destruct p as [v|e|]; cbn [first_jobs second_jobs flat_map List.app length].
    + fold (first_jobs l). fold (second_jobs l). cbn [run queue result waiting run_job].
      rewrite resolve_or_else. unfold enqueue. cbn [result queue waiting].
      rewrite <- app_assoc, IH, or_else_assoc, <- app_assoc. reflexivity.
    + fold (first_jobs l). fold (second_jobs l). cbn [run queue result waiting run_job].
      unfold enqueue. cbn [result queue waiting].
      rewrite <- app_assoc, IH, <- app_assoc. reflexivity.
    + apply IH.
Qed.

Lemma run_second_jobs (l : list (promise value)) :
  forall r ws,
    run (length (second_jobs l)) {| result := r; queue := second_jobs l; waiting := ws |}
    = {| result := or_else r (first_rejected l); queue := []; waiting := ws |}.
Proof.
  induction l as [|p l IH]; intros r ws.
  - cbn. now rewrite or_else_pending.
  - destruct p as [v|e|]; cbn [second_jobs flat_map List.app length].
    + fold (second_jobs l). cbn [run queue result waiting run_job]. apply IH.
    + fold (second_jobs l). cbn [run queue result waiting run_job].
      rewrite reject_or_else, IH, or_else_assoc. reflexivity.
    + apply IH.
Qed.

Lemma second_jobs_length (l : list (promise value)) :
  length (second_jobs l) = length (first_jobs l).
Proof.
  induction l as [|p l IH]; [reflexivity|].
  cbn [first_jobs second_jobs flat_map]. rewrite !length_app.
  fold (first_jobs l). fold (second_jobs l). rewrite IH. now destruct p.
Qed.

(** The queue of the call, once run. *)
Lemma drain_getFastestPromise (array : list (promise value)) :
  result (drain (getFastestPromise array))
  = or_else (first_fulfilled array) (first_rejected array)
  /\ queue (drain (getFastestPromise array)) = [].
Proof.
  unfold drain, getFastestPromise.
  destruct (forEach_then_catch (indexed array)
              {| result := Pending; queue := []; waiting := [] |}) as [Hresult Hqueue].
  destruct (fold_left then_catch (indexed array) _) as [r q ws].
  cbn [result queue List.app] in *. subst r q. rewrite PromisesFacts.snd_indexed.
  replace (2 * length (first_jobs array))
    with (length (first_jobs array) + length (second_jobs array))
    by (rewrite second_jobs_length; lia).
  rewrite run_add.
  pose proof (run_first_jobs array Pending [] ws) as Hfirst.
  rewrite app_nil_r in Hfirst. cbn [List.app] in Hfirst.
  rewrite Hfirst, run_second_jobs. split; reflexivity.
Qed.

Lemma or_else_fastest (array : list (promise value)) :
  or_else (first_fulfilled array) (first_rejected array) = fastest array.
Proof.
  unfold first_fulfilled, first_rejected, fastest.
  destruct (fulfilled_values array); [|reflexivity]. now destruct (rejected_reasons array).
Qed.

(** X11. With the inputs that are settled at the call, [getFastestPromise]
    ends in the state of the first fulfilled input of the array if there is
    one, whatever rejected inputs stand before it; in the state of the first
    rejected input if none is fulfilled; and it stays pending if no input is
    settled, so for the empty array. The queue is empty then. *)
Theorem getFastestPromise_settled_inputs (array : list (promise value)) :
  queue (drain (getFastestPromise array)) = []
  /\ (forall v before after,
        array = (before ++ Fulfilled v :: after)%list ->
        Forall (fun p => forall v', p <> Fulfilled v') before ->
        result (drain (getFastestPromise array)) = Fulfilled v)
  /\ (forall e before after,
        array = (before ++ Rejected e :: after)%list ->
        Forall (fun p => p = Pending) before ->
        Forall (fun p => forall v', p <> Fulfilled v') after ->
        result (drain (getFastestPromise array)) = Rejected e)
  /\ (Forall (fun p => p = Pending) array ->
      result (drain (getFastestPromise array)) = Pending).
Proof.
  destruct (drain_getFastestPromise array) as [Hresult Hqueue].
  rewrite Hresult. split; [exact Hqueue|].
  assert (Hnone : forall l, Forall (fun p : promise value => forall v', p <> Fulfilled v') l ->
                            fulfilled_values l = []).
  { induction 1 as [|p l Hp Hl IH]; [reflexivity|].
    cbn [fulfilled_values flat_map]. fold (fulfilled_values l). rewrite IH.
    destruct p as [v'| |]; [now destruct (Hp v') | reflexivity | reflexivity]. }
  assert (Hquiet : forall l, Forall (fun p : promise value => p = Pending) l ->
                             fulfilled_values l = [] /\ rejected_reasons l = []).
  { induction 1 as [|p l Hp Hl [IHf IHr]]; [split; reflexivity|]. subst p.
    cbn [fulfilled_values rejected_reasons flat_map]. auto. }
  unfold first_fulfilled, first_rejected.
  split; [|split].
  - intros v before after -> Hbefore.
    unfold fulfilled_values. rewrite flat_map_app. fold (fulfilled_values before).
    rewrite (Hnone before Hbefore). reflexivity.
  - intros e before after -> Hbefore Hafter.
    destruct (Hquiet before Hbefore) as [Hf Hr].
    unfold fulfilled_values, rejected_reasons. rewrite !flat_map_app.
    fold (fulfilled_values before). fold (rejected_reasons before). rewrite Hf, Hr.
    cbn [flat_map List.app]. fold (fulfilled_values after). rewrite (Hnone after Hafter).
    reflexivity.
  - intros Hall. destruct (Hquiet array Hall) as [-> ->]. reflexivity.
Qed.

Lemma getFastestPromise_settled_inputs_witness :
  result (drain (getFastestPromise
                   ([Rejected (Error "no"); Pending] ++ Fulfilled (VNum 1) :: [Fulfilled (VNum 2)])))
  = Fulfilled (VNum 1).
Proof.
  apply (proj1 (proj2 (getFastestPromise_settled_inputs
                         ([Rejected (Error "no"); Pending] ++ Fulfilled (VNum 1) :: [Fulfilled (VNum 2)])))
           (VNum 1) [Rejected (Error "no"); Pending] [Fulfilled (VNum 2)] eq_refl).
  repeat constructor; discriminate.
Defined.

(** A job leaves a settled promise as it is, and the waiting handlers too. *)
Lemma run_job_settled (j : job) (w : world) :
  settled (result w) = true -> result (run_job j w) = result w.
Proof.
  intros Hw. destruct j; cbn [run_job]; unfold resolve, reject, enqueue;
    destruct (result w) eqn:Hr; try discriminate; cbn [result]; auto.
Qed.

Lemma run_job_waiting (j : job) (w : world) : waiting (run_job j w) = waiting w.
Proof.
  destruct j; cbn [run_job]; unfold resolve, reject, enqueue;
    destruct (result w); reflexivity.
Qed.

Lemma run_settled (fuel : nat) :
  forall w, settled (result w) = true -> result (run fuel w) = result w.
Proof.
  induction fuel as [|fuel IH]; intros w Hw; [reflexivity|].
  cbn [run]. destruct (queue w) as [|j q]; [reflexivity|].
  rewrite IH; rewrite run_job_settled; auto.
Qed.

Lemma run_waiting (fuel : nat) : forall w, waiting (run fuel w) = waiting w.
Proof.
  induction fuel as [|fuel IH]; intros w; [reflexivity|].
  cbn [run]. destruct (queue w) as [|j q]; [reflexivity|].
  now rewrite IH, run_job_waiting.
Qed.

Lemma settle_result (i : nat) (outcome : promise value) (w : world) :
  result (settle i outcome w) = result w.
Proof.
  unfold settle. destruct (existsb _ _); [|reflexivity]. now destruct outcome.
Qed.




(** The handlers left waiting by the executor are those of the inputs that
    were pending. *)
Lemma forEach_then_catch_waiting (l : list (promise value)) :
  forall (n : nat) (w : world) (i : nat),
    In i (waiting w) \/ (n <= i /\ nth_error l (i - n) = Some Pending) ->
    In i (waiting (fold_left then_catch (combine (seq n (length l)) l) w)).
Proof.
  induction l as [|p l IH]; intros n w i Hi.
  - destruct Hi as [Hi|[_ Hi]]; [exact Hi|]. now destruct (i - n).
  - cbn [length seq combine fold_left]. apply IH.
    destruct Hi as [Hi|[Hn Hi]].
    + left. unfold then_catch. cbn [snd fst].
      destruct p; cbn [waiting enqueue]; [assumption|assumption|].
      apply in_or_app. now left.
    + destruct (Nat.eq_dec i n) as [->|Hne].
      * left. rewrite Nat.sub_diag in Hi. cbn [nth_error] in Hi. injection Hi as ->.
        unfold then_catch. cbn [snd fst waiting]. apply in_or_app. right. now left.
      * right. split; [lia|]. replace (i - n) with (S (i - S n)) in Hi by lia.
        exact Hi.
Qed.

(** With no input settled at the call, the executor queues nothing and
    leaves a handler waiting on every input. *)
Lemma getFastestPromise_all_pending (array : list (promise value)) :
  Forall (fun p => settled p = false) array ->
  result (getFastestPromise array) = Pending
  /\ queue (getFastestPromise array) = []
  /\ forall i, i < length array -> In i (waiting (getFastestPromise array)).
Proof.
  intros Hpending. unfold getFastestPromise.
  destruct (forEach_then_catch (indexed array)
              {| result := Pending; queue := []; waiting := [] |}) as [Hresult Hqueue].
  split; [exact Hresult|]. split.
  - rewrite Hqueue, PromisesFacts.snd_indexed. cbn [queue List.app].
    clear Hresult Hqueue.
    induction Hpending as [|p l Hp Hl IH]; [reflexivity|].
    cbn [first_jobs flat_map]. fold (first_jobs l). rewrite IH. now destruct p.
  - intros i Hi. unfold indexed. apply forEach_then_catch_waiting.
    right. split; [lia|]. rewrite Nat.sub_0_r.
    destruct (nth_error array i) as [p|] eqn:Hp.
    + rewrite Forall_forall in Hpending. apply nth_error_In in Hp as Hin.
      specialize (Hpending p Hin). now destruct p.
    + apply nth_error_None in Hp. lia.
Qed.

Lemma or_else_settled (r p : promise value) : settled r = true -> or_else r p = r.
Proof. now destruct r. Qed.

Lemma first_call_app (q q' : list job) :
  first_call (q ++ q') = or_else (first_call q) (first_call q').
Proof.
  induction q as [|j q IH]; [reflexivity|]. now destruct j.
Qed.

(** A job that runs leaves what is decided as it is. *)
Lemma decided_run_job (j : job) (r : promise value) (q : list job) (ws : list nat) :
  settled (or_else r (first_call (j :: q))) = true ->
  decided (run_job j {| result := r; queue := q; waiting := ws |})
  = or_else r (first_call (j :: q)).
Proof.
  intros Hsettled. unfold decided.
  destruct j as [v|e|e|]; cbn [run_job first_call] in *.
  - rewrite resolve_or_else. unfold enqueue. cbn [result queue].
    rewrite or_else_settled; [reflexivity|]. now destruct r.
  - unfold enqueue. cbn [result queue].
    rewrite first_call_app, <- or_else_assoc. now apply or_else_settled.
  - rewrite reject_or_else. cbn [result queue].
    rewrite or_else_settled; [reflexivity|]. now destruct r.
  - reflexivity.
Qed.

Lemma decided_run (fuel : nat) :
  forall w, settled (decided w) = true -> decided (run fuel w) = decided w.
Proof.
  induction fuel as [|fuel IH]; intros [r q ws] Hw; [reflexivity|].
  cbn [run queue result waiting]. destruct q as [|j q]; [reflexivity|].
  unfold decided in Hw. cbn [result queue] in Hw.
  pose proof (decided_run_job j r q ws Hw) as Hjob.
  rewrite IH; rewrite Hjob; auto.
Qed.

(** An input that settles leaves what is decided as it is: its job stands
    behind the others. *)
Lemma decided_settle (i : nat) (outcome : promise value) (w : world) :
  settled (decided w) = true -> decided (settle i outcome w) = decided w.
Proof.
  intros Hw. unfold settle. destruct (existsb _ _); [|reflexivity].
  unfold decided in *.
  destruct outcome as [v|e|]; [| |reflexivity]; unfold enqueue; cbn [result queue];
    rewrite first_call_app, <- or_else_assoc; now apply or_else_settled.
Qed.

Lemma decided_schedule (events : list event) :
  forall w, settled (decided w) = true -> decided (schedule events w) = decided w.
Proof.
  induction events as [|e events IH]; intros w Hw; [reflexivity|].
  unfold schedule. cbn [fold_left]. fold (schedule events (play w e)).
  assert (Hplay : decided (play w e) = decided w).
  { destruct e as [i outcome|]; [now apply decided_settle | now apply decided_run]. }
  rewrite IH; rewrite Hplay; auto.
Qed.

(** Every job that runs takes one off the weight of the queue. *)
Lemma weight_run_job (j : job) (r : promise value) (q : list job) (ws : list nat) :
  S (weight (queue (run_job j {| result := r; queue := q; waiting := ws |})))
  = weight (j :: q).
Proof.
  unfold weight.
  destruct j as [v|e|e|]; cbn [run_job map list_sum job_weight];
    rewrite ?resolve_or_else, ?reject_or_else; unfold enqueue; cbn [queue];
    rewrite ?map_app, ?list_sum_app; unfold list_sum; cbn [map fold_right job_weight];
    lia.
Qed.

Lemma run_weight (fuel : nat) :
  forall w, weight (queue w) <= fuel -> queue (run fuel w) = [].
Proof.
  induction fuel as [|fuel IH]; intros [r q ws] Hw; cbn [queue] in Hw.
  - destruct q as [|j q]; [reflexivity|].
    unfold weight, list_sum in Hw. cbn [map fold_right] in Hw.
    destruct j; cbn [job_weight] in Hw; lia.
  - cbn [run queue result waiting]. destruct q as [|j q]; [reflexivity|].
    apply IH. pose proof (weight_run_job j r q ws). lia.
Qed.

Lemma weight_length (q : list job) : weight q <= 2 * length q.
Proof.
  unfold weight, list_sum. induction q as [|j q IH]; [cbn; lia|].
  cbn [map fold_right length]. destruct j; cbn [job_weight]; lia.
Qed.

(** What is decided is the state of the promise once the queue has run. *)
Lemma run_decided (fuel : nat) (w : world) :
  settled (decided w) = true -> weight (queue w) <= fuel ->
  result (run fuel w) = decided w.
Proof.
  intros Hw Hfuel. rewrite <- (decided_run fuel w Hw). unfold decided.
  rewrite (run_weight fuel w Hfuel). cbn [first_call]. now rewrite or_else_pending.
Qed.

Lemma drain_decided (events : list event) (w : world) :
  settled (decided w) = true ->
  result (drain (schedule events w)) = decided w.
Proof.
  intros Hw. rewrite <- (decided_schedule events w Hw). unfold drain.
  apply run_decided; [|apply weight_length].
  now rewrite decided_schedule.
Qed.

(** Nothing runs while the queue is empty. *)
Lemma schedule_idle (idle : nat) (w : world) :
  queue w = [] -> schedule (repeat Runs idle) w = w.
Proof.
  intros Hq. induction idle as [|idle IH]; [reflexivity|].
  unfold schedule. cbn [repeat fold_left play run]. rewrite Hq. exact IH.
Qed.

Lemma schedule_cons (e : event) (events : list event) (w : world) :
  schedule (e :: events) w = schedule events (play w e).
Proof. reflexivity. Qed.

Lemma schedule_app (events events' : list event) (w : world) :
  schedule (events ++ events') w = schedule events' (schedule events w).
Proof. apply fold_left_app. Qed.

Lemma run_schedule (n : nat) :
  forall w, schedule (repeat Runs n) w = run n w.
Proof.
  induction n as [|n IH]; intros w; [reflexivity|].
  cbn [repeat]. rewrite schedule_cons, IH. cbn [play].
  now rewrite <- run_add.
Qed.

(** The inputs of [settle_all] settle in a schedule of their own: the one
    in which the queue runs empty behind each input. *)
Lemma settle_all_schedule (events : list (nat * promise value)) :
  forall w, exists sched,
    settle_all events w = schedule sched w
    /\ flat_map (fun e => match e with
                          | Settles i outcome => [(i, outcome)]
                          | Runs => []
                          end) sched = events.
Proof.
  induction events as [|[i outcome] events IH]; intros w.
  - exists []. split; reflexivity.
  - destruct (IH (drain (settle i outcome w))) as (sched & Hsched & Hevents).
    exists (Settles i outcome
            :: repeat Runs (2 * length (queue (settle i outcome w))) ++ sched)%list.
    split.
    + unfold settle_all. cbn [fold_left fst snd].
      fold (settle_all events (drain (settle i outcome w))).
      rewrite Hsched, schedule_cons, schedule_app, run_schedule. reflexivity.
    + cbn [flat_map List.app]. rewrite flat_map_app, Hevents. f_equal.
      generalize (2 * length (queue (settle i outcome w))); intros n.
      induction n as [|n IHn]; [reflexivity | exact IHn].
Qed.

(** A settled promise stays as it is, whenever the inputs settle. *)
Lemma schedule_settled (events : list event) :
  forall w, settled (result w) = true -> result (schedule events w) = result w.
Proof.
  induction events as [|e events IH]; intros w Hw; [reflexivity|].
  rewrite schedule_cons.
  assert (Hplay : result (play w e) = result w).
  { destruct e as [i outcome|]; cbn [play];
      [apply settle_result | now apply run_settled]. }
  rewrite IH; rewrite Hplay; auto.
Qed.

(** Rejected inputs queue jobs that call neither [resolve] nor [reject],
    and take no other handler off the waiting ones. *)
Lemma schedule_rejections (events : list event) :
  forall w,
    forallb is_rejection events = true ->
    result (schedule events w) = result w
    /\ (exists q, queue (schedule events w) = (queue w ++ q)%list /\ first_call q = Pending)
    /\ (forall j, In j (waiting w) -> untouched j events = true ->
                  In j (waiting (schedule events w))).
Proof.
  induction events as [|ev events IH]; intros w Hall.
  - cbn. split; [reflexivity|]. split; [|auto].
    exists []. now rewrite app_nil_r.
  - cbn [forallb] in Hall. apply andb_prop in Hall as [Hev Hall].
    destruct ev as [i [v|e|]|]; try discriminate.
    unfold schedule. cbn [fold_left play].
    fold (schedule events (settle i (Rejected e) w)).
    destruct (IH (settle i (Rejected e) w) Hall) as (Hresult & (q & Hqueue & Hq) & Hwaiting).
    split; [now rewrite Hresult, settle_result|]. split.
    + rewrite Hqueue. unfold settle. destruct (existsb _ _).
      * exists (PassRejection e :: q). unfold enqueue. cbn [queue].
        rewrite <- app_assoc. split; [reflexivity | exact Hq].
      * exists q. split; [reflexivity | exact Hq].
    + intros j Hj Huntouched. cbn [untouched forallb] in Huntouched.
      apply andb_prop in Huntouched as [Hij Huntouched].
      apply Hwaiting; [|exact Huntouched].
      unfold settle. destruct (existsb _ _); [|exact Hj].
      unfold enqueue. cbn [waiting]. apply filter_In. split; [exact Hj | exact Hij].
Qed.

(** The first input to settle, with the promise pending and the queue
    empty. *)
Lemma settle_first (i : nat) (outcome : promise value) (w : world) :
  queue w = [] -> In i (waiting w) ->
  settle i outcome w
  = match outcome with
    | Fulfilled v =>
      {| result := result w; queue := [OnFulfilled v];
         waiting := filter (fun k => negb (Nat.eqb i k)) (waiting w) |}
    | Rejected e =>
      {| result := result w; queue := [PassRejection e];
         waiting := filter (fun k => negb (Nat.eqb i k)) (waiting w) |}
    | Pending => w
    end.
Proof.
  intros Hqueue Hi. unfold settle.
  assert (Hin : existsb (Nat.eqb i) (waiting w) = true).
  { apply existsb_exists. exists i. split; [assumption | apply Nat.eqb_refl]. }
  rewrite Hin. destruct outcome; unfold enqueue; cbn [queue result waiting];
    rewrite ?Hqueue; reflexivity.
Qed.

(** X13. When no input is settled at the call, the first input to settle
    decides if it is fulfilled: [getFastestPromise] resolves with its value,
    whatever settles behind it and whenever. If it is rejected, its reason
    goes through two jobs, the one of [then] and the one of [catch]:
    [getFastestPromise] rejects with it when the first of the two has run
    before an input is fulfilled, or when no input is fulfilled at all; an
    input that is fulfilled before that job has run overtakes the rejection,
    and [getFastestPromise] resolves with its value. *)
Theorem getFastestPromise_first_to_settle (array : list (promise value))
  (i idle : nat) (rejections later : list event) :
  Forall (fun p => settled p = false) array ->
  i < length array ->
  forallb is_rejection rejections = true ->
  (forall v,
      settles_as array (repeat Runs idle ++ Settles i (Fulfilled v) :: later)
      = Fulfilled v)
  /\ (forall e,
        settles_as array (repeat Runs idle ++ Settles i (Rejected e) :: rejections)
        = Rejected e
        /\ settles_as array
             (repeat Runs idle ++ Settles i (Rejected e) :: rejections ++ Runs :: later)
           = Rejected e)
  /\ (forall e j v,
        j < length array -> j <> i -> untouched j rejections = true ->
        settles_as array
          (repeat Runs idle
           ++ Settles i (Rejected e) :: rejections ++ Settles j (Fulfilled v) :: later)
        = Fulfilled v).
Proof.
  intros Hpending Hi Hrejections.
  destruct (getFastestPromise_all_pending array Hpending) as (Hresult & Hqueue & Hwaiting).
  unfold settles_as.
  assert (Hstart : forall outcome rest,
             schedule (repeat Runs idle ++ Settles i outcome :: rest) (getFastestPromise array)
             = schedule rest (settle i outcome (getFastestPromise array))).
  { intros outcome rest. rewrite schedule_app, schedule_idle by assumption. reflexivity. }
  split; [|split].
  - intros v. rewrite Hstart, settle_first by auto.
    rewrite drain_decided; unfold decided; cbn [result queue first_call];
      rewrite Hresult; reflexivity.
  - intros e. rewrite !Hstart, settle_first by auto.
    set (w := {| result := result (getFastestPromise array); queue := [PassRejection e];
                 waiting := _ |}).
    destruct (schedule_rejections rejections w Hrejections) as (Hr & (q & Hq & Hcall) & _).
    change (result (schedule rejections w) = result (getFastestPromise array)) in Hr.
    change (queue (schedule rejections w) = PassRejection e :: q) in Hq.
    rewrite Hresult in Hr.
    assert (Hstep : decided (run 1 (schedule rejections w)) = Rejected e).
    { destruct (schedule rejections w) as [r' q' ws']. cbn [result queue] in Hr, Hq.
      subst r' q'. cbn [run queue result waiting run_job]. unfold enqueue, decided.
      cbn [result queue or_else]. rewrite first_call_app, Hcall. reflexivity. }
    split.
    + unfold drain. rewrite Hq. cbn [length Nat.mul Nat.add].
      change (run (S (length q + S (length q + 0))) (schedule rejections w))
        with (run (1 + (length q + S (length q + 0))) (schedule rejections w)).
      rewrite run_add, run_decided; rewrite ?Hstep; auto.
      assert (Hweight : S (weight (queue (run 1 (schedule rejections w))))
                        = weight (queue (schedule rejections w))).
      { destruct (schedule rejections w) as [r' q' ws']. cbn [queue] in Hq. subst q'.
        cbn [run queue result waiting]. apply weight_run_job. }
      rewrite Hq in Hweight. pose proof (weight_length (PassRejection e :: q)) as Hlen.
      cbn [length] in Hlen. lia.
    + rewrite schedule_app, schedule_cons. cbn [play].
      rewrite drain_decided; rewrite Hstep; auto.
  - intros e j v Hj Hji Huntouched. rewrite Hstart, settle_first by auto.
    set (w := {| result := result (getFastestPromise array); queue := [PassRejection e];
                 waiting := _ |}).
    destruct (schedule_rejections rejections w Hrejections)
      as (Hr & (q & Hq & Hcall) & Hkept).
    change (result (schedule rejections w) = result (getFastestPromise array)) in Hr.
    change (queue (schedule rejections w) = PassRejection e :: q) in Hq.
    rewrite Hresult in Hr.
    assert (Hin : In j (waiting (schedule rejections w))).
    { apply Hkept; [|exact Huntouched]. unfold w. cbn [waiting].
      apply filter_In. split; [now apply Hwaiting|].
      apply negb_true_iff, Nat.eqb_neq. auto. }
    rewrite schedule_app, schedule_cons. cbn [play].
    assert (Hstep : decided (settle j (Fulfilled v) (schedule rejections w)) = Fulfilled v).
    { unfold settle.
      assert (Hex : existsb (Nat.eqb j) (waiting (schedule rejections w)) = true).
      { apply existsb_exists. exists j. split; [assumption | apply Nat.eqb_refl]. }
      rewrite Hex. unfold enqueue, decided. cbn [result queue]. rewrite Hr, Hq.
      cbn [or_else List.app first_call]. rewrite first_call_app, Hcall. reflexivity. }
    rewrite drain_decided; rewrite Hstep; auto.
Qed.

(** Two inputs, pending at the call. The first is rejected and the second is
    fulfilled before a job has run: the promise resolves. With one job run
    between the two, it rejects. *)
Lemma getFastestPromise_first_to_settle_witness :
  settles_as [Pending; Pending]
    [Settles 0 (Rejected (Error "first")); Settles 1 (Fulfilled (VNum 7))]
  = Fulfilled (VNum 7)
  /\ settles_as [Pending; Pending]
       [Settles 0 (Rejected (Error "first")); Runs; Settles 1 (Fulfilled (VNum 7))]
     = Rejected (Error "first").
Proof.
  assert (Hpending : Forall (fun p : promise value => settled p = false) [Pending; Pending])
    by (repeat constructor).
  assert (Hi : 0 < length [@Pending value; Pending]) by (simpl; lia).
  split.
  - apply (proj2 (proj2 (getFastestPromise_first_to_settle [Pending; Pending] 0 0 [] []
                           Hpending Hi eq_refl))
             (Error "first") 1 (VNum 7)); [simpl; lia | discriminate | reflexivity].
  - apply (proj2 (proj1 (proj2 (getFastestPromise_first_to_settle [Pending; Pending] 0 0 []
                                  [Settles 1 (Fulfilled (VNum 7))] Hpending Hi eq_refl))
                    (Error "first"))).
Defined.

End RaceFacts.

(** ** getJSON and fromJSON, composed *)

Module RevivalFacts.
Import Js Json JsFacts JsonFacts.

(** The text [getJSON] gives is the text of the own properties. *)
Lemma getJSON_text {P : Type} `{Prototype P} (obj : object P) (text : string) :
  getJSON obj = Some text -> text = SerializeJSONProperty (own_properties obj).
Proof.
  destruct obj as [prototype own|value]; cbn [getJSON own_properties].
  - destruct (has_toJSON prototype); [discriminate | apply JSON_stringify_text].
  - apply JSON_stringify_text.
Qed.

(** X14. [getJSON] tells data apart. Two objects with no toJSON method,
    holding plain data of the kinds modelled (safe integers, strings of code
    units below 256), that [getJSON] gives the same text for have the same
    own properties: names, values and order. Their prototypes need not be
    the same. *)
Theorem getJSON_injective {P : Type} `{Prototype P} (obj obj' : object P) (text : string) :
  plain (own_properties obj) -> plain (own_properties obj') ->
  getJSON obj = Some text -> getJSON obj' = Some text ->
  own_properties obj = own_properties obj'.
Proof.
  intros Hplain Hplain' Htext Htext'.
  apply getJSON_text in Htext, Htext'. rewrite Htext in Htext'.
  apply (f_equal JSON_parse) in Htext'.
  rewrite !JSON_parse_stringify in Htext' by assumption. now injection Htext'.
Qed.

Lemma getJSON_injective_witness :
  own_properties (Object Circle_prototype (JObj [("0", JStr "x"); ("radius", JNum 10)]))
  = own_properties (Object Object_prototype (JObj [("0", JStr "x"); ("radius", JNum 10)])).
Proof.
  apply (getJSON_injective
           (Object Circle_prototype (JObj [("0", JStr "x"); ("radius", JNum 10)]))
           (Object Object_prototype (JObj [("0", JStr "x"); ("radius", JNum 10)]))
           (String "{" (QuoteJSONString "0" ++ ":" ++ QuoteJSONString "x" ++ ","
                        ++ QuoteJSONString "radius" ++ ":10}")));
    try reflexivity;
    (split; [apply own_order_create_props; reflexivity|]);
    cbn [fold_right plain]; repeat split; unfold max_safe_integer; cbn; lia.
Defined.

(** X15. An object or array with no toJSON method, holding plain data of
    the kinds modelled, comes back from [fromJSON] with the properties it
    had, under the prototype given. If that prototype has no toJSON method
    either, the text of what came back is the same text again, and it reads
    back to the same properties under the prototype given last. *)
Theorem fromJSON_twice {P : Type} `{Prototype P} (proto proto' prototype : P) (own : json) :
  plain own ->
  (exists props, own = JObj props) \/ (exists items, own = JArr items) ->
  has_toJSON prototype = false ->
  exists text,
    getJSON (Object prototype own) = Some text
    /\ fromJSON proto text = Some (Normal (Object proto own))
    /\ (has_toJSON proto = false ->
        getJSON (Object proto own) = Some text
        /\ fromJSON proto' text = Some (Normal (Object proto' own))).
Proof.
  intros Hplain Hobject Hprototype. exists (SerializeJSONProperty own).
  assert (Hback : forall p : P, fromJSON p (SerializeJSONProperty own) = Some (Normal (Object p own))).
  { intros p. unfold fromJSON. rewrite JSON_parse_stringify by assumption.
    destruct Hobject as [[props ->]|[items ->]]; reflexivity. }
  cbn [getJSON]. rewrite Hprototype, JSON_stringify_plain by assumption.
  split; [reflexivity|]. split; [apply Hback|].
  intros ->. split; [reflexivity | apply Hback].
Qed.

Lemma fromJSON_twice_witness :
  exists text,
    getJSON (Object Object_prototype (JArr [JNum 1; JStr "two"; JNull])) = Some text
    /\ fromJSON Circle_prototype text
       = Some (Normal (Object Circle_prototype (JArr [JNum 1; JStr "two"; JNull])))
    /\ (has_toJSON Circle_prototype = false ->
        getJSON (Object Circle_prototype (JArr [JNum 1; JStr "two"; JNull])) = Some text
        /\ fromJSON Date_prototype text
           = Some (Normal (Object Date_prototype (JArr [JNum 1; JStr "two"; JNull])))).
Proof.
  apply fromJSON_twice.
  - cbn [plain fold_right]. repeat split. unfold max_safe_integer. cbn. lia.
  - right. eexists. reflexivity.
  - reflexivity.
Defined.

(** X16. [fromJSON] does not look at what the text holds before it sets the
    prototype: on the text of a number, a string or a boolean it returns the
    value as it is, with no prototype set, and on the text of null it throws
    the TypeError of [Object.setPrototypeOf]. *)
Theorem fromJSON_primitive {P : Type} `{Prototype P} (proto : P) (value : json) :
  plain value ->
  (forall props, value <> JObj props) -> (forall items, value <> JArr items) ->
  exists text,
    getJSON (@Primitive P value) = Some text
    /\ fromJSON proto text
       = Some match value with
              | JNull => Throw (TypeError "Object.setPrototypeOf called on null or undefined")
              | _ => Normal (Primitive value)
              end.
Proof.
  intros Hplain Hobj Harr. exists (SerializeJSONProperty value).
  split; [now apply JSON_stringify_plain|].
  unfold fromJSON. rewrite JSON_parse_stringify by assumption.
  destruct value as [|b|n|s|items|props]; try reflexivity.
  - now destruct (Harr items).
  - now destruct (Hobj props).
Qed.

Lemma fromJSON_primitive_witness :
  exists text,
    getJSON (@Primitive example_prototype (JNum 5)) = Some text
    /\ fromJSON Circle_prototype text = Some (Normal (Primitive (JNum 5))).
Proof.
  apply (fromJSON_primitive Circle_prototype (JNum 5)).
  - cbn. unfold max_safe_integer. lia.
  - discriminate.
  - discriminate.
Defined.

End RevivalFacts.
